(** * Import cost calculator (src/components/ImportCalculator.tsx)

    A shallow embedding of [calculateCosts], the one function of the
    repository with an input/output contract, together with the JavaScript
    primitives it relies on:

    - JavaScript numbers are IEEE 754 binary64 values.  They are modelled by
      [spec_float] of the Standard Library with precision 53 and maximal
      exponent 1024; [*] and [+] are [SFmul] and [SFadd] (round to nearest,
      ties to even), so every product and sum below is rounded exactly as
      the engine rounds it.
    - [parseFloat] is modelled on strings of code units below 256.
    - The [shippingRates] object is a finite map from the names of its own
      properties to numbers, as its index signature declares; reading a
      name that is not among them goes on to [Object.prototype], so the
      shipping cost, and the total it is added to, may be a value that is
      not a number. *)

From Stdlib Require Import ZArith Lia Bool List Sorting.Sorted.
From Stdlib Require Import Strings.String Strings.Ascii.
From Stdlib Require Import Floats.SpecFloat.
From stdpp Require Import gmap strings.

Local Open Scope Z_scope.
Local Open Scope string_scope.

(** ** JavaScript numbers *)

Module JS.

Definition number : Type := spec_float.

Definition prec : Z := 53.
Definition emax : Z := 1024.

Definition NaN : number := S754_nan.
Definition Infinity : number := S754_infinity false.
Definition zero : number := S754_zero false.

(** [x * y] and [x + y] on numbers. *)
Definition mul (x y : number) : number := SFmul prec emax x y.
Definition add (x y : number) : number := SFadd prec emax x y.

(** [x < y], [x <= y] and [x === y] on numbers (all false on NaN). *)
Definition ltb (x y : number) : bool := SFltb x y.
Definition leb (x y : number) : bool := SFleb x y.
Definition eqb (x y : number) : bool := SFeqb x y.

(** ToBoolean on a number: [+0], [-0] and [NaN] are falsy. *)
Definition truthy (x : number) : bool :=
  match x with
  | S754_zero _ | S754_nan => false
  | S754_infinity _ | S754_finite _ _ _ => true
  end.

(** ToBoolean on a string: only the empty string is falsy. *)
Definition truthy_string (s : string) : bool :=
  match s with
  | EmptyString => false
  | String _ _ => true
  end.

Definition is_finite (x : number) : bool :=
  match x with
  | S754_zero _ | S754_finite _ _ _ => true
  | S754_infinity _ | S754_nan => false
  end.

(** The number nearest to [(-1)^neg * m * 10^e]: the value of a decimal
    literal, in source text or in a string handed to [parseFloat]. *)
Definition of_decimal (neg : bool) (m : N) (e : Z) : number :=
  match m with
  | N0 => S754_zero neg
  | Npos p =>
      match e with
      | Zneg k =>
          SFdiv prec emax (S754_finite neg p 0)
                          (S754_finite false (Pos.pow 10 k) 0)
      | Z0 => binary_round prec emax neg p 0
      | Zpos k => binary_round prec emax neg (p * Pos.pow 10 k) 0
      end
  end.

(** *** Numeric literals of the source text *)

Definition of_literal (n : Number.number) : option number :=
  match n with
  | Number.Decimal (Decimal.Decimal (Decimal.Pos i) f) =>
      Some (of_decimal false (N.of_uint (Decimal.app i f))
              (- Z.of_nat (Decimal.nb_digits f)))
  | Number.Decimal (Decimal.DecimalExp (Decimal.Pos i) f e) =>
      Some (of_decimal false (N.of_uint (Decimal.app i f))
              (Z.of_int e - Z.of_nat (Decimal.nb_digits f)))
  | _ => None
  end.

Definition to_literal (x : number) : option Number.number := None.

Declare Scope js_scope.
Delimit Scope js_scope with js.
Number Notation spec_float of_literal to_literal : js_scope.
Infix "*" := mul : js_scope.
Infix "+" := add : js_scope.

(** *** Values that need not be numbers

    A property read can yield [undefined], a number, or a member that
    every object inherits from [Object.prototype]: a built-in function or,
    for [__proto__], the prototype itself.  Once an operand of [+] is such
    an object or a string, [+] concatenates: [Concat l r] is the string made
    of [ToString l] followed by [ToString r], whose characters are left
    uncomputed (the text of a built-in function is implementation
    defined). *)
Inductive Value :=
| Undefined
| Num (n : spec_float)
| Inherited (name : string)
| Concat (left right : Value).

Coercion Num : spec_float >-> Value.

(** ToBoolean: objects are truthy, and so is a string that is not empty
    (no [ToString] is). *)
Definition truthy_value (v : Value) : bool :=
  match v with
  | Undefined => false
  | Num n => truthy n
  | Inherited _ | Concat _ _ => true
  end.

(** [x || y] *)
Definition or_else (x y : Value) : Value :=
  if truthy_value x then x else y.

(** [x + y]: the sum of the two numbers when both operands are numbers
    or [undefined] (which converts to NaN), the concatenation of the two
    strings once ToPrimitive makes one operand a string. *)
Definition plus (x y : Value) : Value :=
  match x, y with
  | Num a, Num b => Num (add a b)
  | Num a, Undefined => Num (add a NaN)
  | Undefined, Num b => Num (add NaN b)
  | Undefined, Undefined => Num (add NaN NaN)
  | _, _ => Concat x y
  end.

Declare Scope value_scope.
Delimit Scope value_scope with value.
Infix "+" := plus : value_scope.
Infix "||" := or_else : value_scope.

(** The names of the properties of [Object.prototype]. *)
Definition ObjectPrototype : list string :=
  ["constructor"; "hasOwnProperty"; "isPrototypeOf"; "propertyIsEnumerable";
   "toLocaleString"; "toString"; "valueOf"; "__proto__";
   "__defineGetter__"; "__defineSetter__"; "__lookupGetter__";
   "__lookupSetter__"].

Definition isInherited (key : string) : bool :=
  existsb (String.eqb key) ObjectPrototype.

(** [o[key]] on an object written as a literal, with the own properties
    [own]: an own property first, then the prototype chain, which for such
    an object is [Object.prototype] alone. *)
Definition Get (own : gmap string number) (key : string) : Value :=
  match own !! key : option number with
  | Some n => Num n
  | None => if isInherited key then Inherited key else Undefined
  end.

(** *** parseFloat *)

(** StrWhiteSpaceChar, restricted to code units below 256. *)
Definition isStrWhiteSpaceChar (c : ascii) : bool :=
  let n := N_of_ascii c in
  (((9 <=? n) && (n <=? 13)) || (n =? 32) || (n =? 160))%N.

Fixpoint TrimStart (s : string) : string :=
  match s with
  | String c s' => if isStrWhiteSpaceChar c then TrimStart s' else s
  | EmptyString => s
  end.

Definition digit_of (c : ascii) : option N :=
  let n := N_of_ascii c in
  if ((48 <=? n) && (n <=? 57))%N then Some (n - 48)%N else None.

(** Reads the longest run of decimal digits at the head of [s], appending
    them to the digits already accumulated in [acc]; returns the
    accumulated value, the number of digits read and the rest. *)
Fixpoint DecimalDigits (s : string) (acc : N) (len : nat)
  : N * nat * string :=
  match s with
  | String c s' =>
      match digit_of c with
      | Some d => DecimalDigits s' (10 * acc + d)%N (S len)
      | None => (acc, len, s)
      end
  | EmptyString => (acc, len, s)
  end.

Definition isExponentIndicator (c : ascii) : bool :=
  (Ascii.eqb c "e" || Ascii.eqb c "E")%char.

(** The value of the ExponentPart at the head of [s]; [0] when [s] does
    not start with a complete exponent part (the longest literal prefix
    then ends before it). *)
Definition ExponentPart (s : string) : Z :=
  match s with
  | String c s' =>
      if isExponentIndicator c then
        let '(neg, ds) :=
          match s' with
          | String "+" t => (false, t)
          | String "-" t => (true, t)
          | _ => (false, s')
          end in
        let '(n, len, _) := DecimalDigits ds 0 0 in
        match len with
        | O => 0
        | S _ => if neg then - Z.of_N n else Z.of_N n
        end
      else 0
  | EmptyString => 0
  end.

(** The longest prefix of [s] that is a StrUnsignedDecimalLiteral,
    evaluated; [NaN] when there is none. *)
Definition StrUnsignedDecimalLiteral (neg : bool) (s : string) : number :=
  if String.prefix "Infinity" s then S754_infinity neg
  else
    let '(ip, ni, r1) := DecimalDigits s 0 0 in
    match r1 with
    | String "." r2 =>
        let '(m, nf, r3) := DecimalDigits r2 ip 0 in
        match ni, nf with
        | O, O => NaN
        | _, _ => of_decimal neg m (ExponentPart r3 - Z.of_nat nf)
        end
    | _ =>
        match ni with
        | O => NaN
        | S _ => of_decimal neg ip (ExponentPart r1)
        end
    end.

Definition parseFloat (s : string) : number :=
  match TrimStart s with
  | String "+" r => StrUnsignedDecimalLiteral false r
  | String "-" r => StrUnsignedDecimalLiteral true r
  | r => StrUnsignedDecimalLiteral false r
  end.

End JS.

Import JS.

(** ** The calculator component *)

Module ImportCalculator.

Local Open Scope js_scope.

Record KRAData := {
  importDutyRate : number;
  exciseDutyRate : number;
  vatRate : number;
  lastUpdated : string
}.

(** [interface ShippingRates { [key: string]: number }] *)
Abbreviation ShippingRates := (gmap string number).

Record EngineSizeOption := {
  engine_value : string;
  engine_label : string;
  multiplier : number
}.

Record AgeOption := {
  age_value : string;
  age_label : string;
  depreciationFactor : number
}.

(** Engine size options with CC ranges *)
Definition engineSizeOptions : list EngineSizeOption := [
  {| engine_value := "1000"; engine_label := "Below 1000cc"; multiplier := 1.0 |};
  {| engine_value := "1500"; engine_label := "1001-1500cc"; multiplier := 1.1 |};
  {| engine_value := "2000"; engine_label := "1501-2000cc"; multiplier := 1.2 |};
  {| engine_value := "2500"; engine_label := "2001-2500cc"; multiplier := 1.3 |};
  {| engine_value := "3000"; engine_label := "2501-3000cc"; multiplier := 1.4 |};
  {| engine_value := "3500"; engine_label := "3001-4000cc"; multiplier := 1.5 |};
  {| engine_value := "4000"; engine_label := "Above 4000cc"; multiplier := 1.6 |}
].

(** Car age options with depreciation factors *)
Definition ageOptions : list AgeOption := [
  {| age_value := "1"; age_label := "Less than 1 year"; depreciationFactor := 1.0 |};
  {| age_value := "2"; age_label := "1-2 years"; depreciationFactor := 0.95 |};
  {| age_value := "3"; age_label := "2-3 years"; depreciationFactor := 0.90 |};
  {| age_value := "5"; age_label := "3-5 years"; depreciationFactor := 0.85 |};
  {| age_value := "8"; age_label := "5-8 years"; depreciationFactor := 0.80 |};
  {| age_value := "10"; age_label := "8+ years"; depreciationFactor := 0.75 |}
].

(** The component state read by [calculateCosts]. *)
Record State := {
  carValue : string;
  engineSize : string;
  age : string;
  origin : string;
  kraData : KRAData;
  shippingRates : ShippingRates
}.

(** Initial values of the [useState] hooks; the two simulated fetches
    store the same three rates again. *)
Definition initialKRAData (now : string) : KRAData :=
  {| importDutyRate := 0.25;
     exciseDutyRate := 0.25;
     vatRate := 0.16;
     lastUpdated := now |}.

Definition initialShippingRates : ShippingRates :=
  {[ "japan" := 150000; "uk" := 200000; "uae" := 180000 ]}.

Definition initialState (now : string) : State :=
  {| carValue := ""; engineSize := ""; age := ""; origin := "japan";
     kraData := initialKRAData now;
     shippingRates := initialShippingRates |}.

(** The object returned by [calculateCosts]. *)
Record Costs := {
  originalValue : number;
  adjustedValue : number;
  importDuty : number;
  exciseDuty : number;
  vat : number;
  shippingCost : Value;
  clearingFees : number;
  inspectionFees : number;
  documentationFees : number;
  kraFees : number;
  ntsa_fees : number;
  portHandling : number;
  ourServiceFee : number;
  totalCost : Value;
  engineMultiplier : number;
  (* the field [depreciationFactor] of the returned object; the name is
     taken by the projection of [AgeOption] *)
  depreciationFactor_ : number
}.

(** [shippingRates[origin] || 150000] *)
Definition lookupShipping (rates : ShippingRates) (key : string) : Value :=
  (Get rates key || 150000)%value.

(** [calculateCosts]; [None] is the [null] it returns. *)
Definition calculateCosts (st : State) : option Costs :=
  let value := parseFloat (carValue st) in
  if negb (truthy value) || negb (truthy_string (engineSize st))
     || negb (truthy_string (age st))
  then None
  else
    match
      find (fun e => String.eqb (engine_value e) (engineSize st)) engineSizeOptions,
      find (fun a => String.eqb (age_value a) (age st)) ageOptions
    with
    | Some selectedEngine, Some selectedAge =>
        (* Apply engine size multiplier and age depreciation *)
        let adjustedValue :=
          value * multiplier selectedEngine * depreciationFactor selectedAge in
        let importDuty := adjustedValue * importDutyRate (kraData st) in
        let exciseDuty := adjustedValue * exciseDutyRate (kraData st) in
        let vat :=
          (adjustedValue + importDuty + exciseDuty) * vatRate (kraData st) in
        let shippingCost := lookupShipping (shippingRates st) (origin st) in
        let clearingFees := 85000 in
        let inspectionFees := 15000 in
        let documentationFees := 25000 in
        let kraFees := 5000 in
        let ntsa_fees := 3000 in
        let portHandling := 12000 in
        let ourServiceFee := adjustedValue * 0.03 in
        let totalCost :=
          (adjustedValue + importDuty + exciseDuty + vat + shippingCost +
           clearingFees + inspectionFees + documentationFees + kraFees +
           ntsa_fees + portHandling + ourServiceFee)%value in
        Some {|
          originalValue := value;
          adjustedValue := adjustedValue;
          importDuty := importDuty;
          exciseDuty := exciseDuty;
          vat := vat;
          shippingCost := shippingCost;
          clearingFees := clearingFees;
          inspectionFees := inspectionFees;
          documentationFees := documentationFees;
          kraFees := kraFees;
          ntsa_fees := ntsa_fees;
          portHandling := portHandling;
          ourServiceFee := ourServiceFee;
          totalCost := totalCost;
          engineMultiplier := multiplier selectedEngine;
          depreciationFactor_ := depreciationFactor selectedAge
        |}
    | _, _ => None
    end.

(** The lookups of [calculateCosts], named for the statements below. *)
Definition selectEngine (engineSize : string) : option EngineSizeOption :=
  find (fun e => String.eqb (engine_value e) engineSize) engineSizeOptions.

Definition selectAge (age : string) : option AgeOption :=
  find (fun a => String.eqb (age_value a) age) ageOptions.

(** The breakdown [calculateCosts] builds once the declared value and
    the two bands are resolved; used to state what it returns. *)
Definition costsOf (value : number) (selectedEngine : EngineSizeOption)
    (selectedAge : AgeOption) (kra : KRAData) (shipping : Value) : Costs :=
  let adjusted :=
    value * multiplier selectedEngine * depreciationFactor selectedAge in
  let duty := adjusted * importDutyRate kra in
  let excise := adjusted * exciseDutyRate kra in
  let vat := (adjusted + duty + excise) * vatRate kra in
  {| originalValue := value;
     adjustedValue := adjusted;
     importDuty := duty;
     exciseDuty := excise;
     vat := vat;
     shippingCost := shipping;
     clearingFees := 85000;
     inspectionFees := 15000;
     documentationFees := 25000;
     kraFees := 5000;
     ntsa_fees := 3000;
     portHandling := 12000;
     ourServiceFee := adjusted * 0.03;
     totalCost :=
       (adjusted + duty + excise + vat + shipping + 85000 + 15000 + 25000 +
        5000 + 3000 + 12000 + adjusted * 0.03)%value;
     engineMultiplier := multiplier selectedEngine;
     depreciationFactor_ := depreciationFactor selectedAge |}.

(** States used as concrete inputs. *)
Definition stateOf (value engine years from : string) (kra : KRAData)
    (rates : ShippingRates) : State :=
  {| carValue := value; engineSize := engine; age := years; origin := from;
     kraData := kra; shippingRates := rates |}.

(** The scenario of the specification: 2,500,000 declared, 1501-2000cc,
    1-2 years, shipped from Japan, with the rates the component starts
    with. *)
Definition exampleState : State :=
  stateOf "2500000" "2000" "2" "japan" (initialKRAData "") initialShippingRates.

(** A negative declared value, an adjusted value that overflows, and a
    rate table whose entry for the origin is infinite. *)
Definition negativeState : State :=
  stateOf "-2500000" "2000" "2" "japan" (initialKRAData "") initialShippingRates.

Definition overflowState : State :=
  stateOf "1.5e308" "4000" "1" "japan" (initialKRAData "") initialShippingRates.

Definition infiniteRateState : State :=
  stateOf "2500000" "2000" "2" "japan" (initialKRAData "")
    {[ "japan" := Infinity ]}.

(** The scenario of the specification with an origin that is no key of
    the rate table but the name of a member of [Object.prototype]. *)
Definition inheritedOriginState : State :=
  stateOf "2500000" "2000" "2" "constructor" (initialKRAData "")
    initialShippingRates.

Definition exampleCosts : Costs :=
  {| originalValue := 2500000;
     adjustedValue := 2850000;
     importDuty := 712500;
     exciseDuty := 712500;
     vat := 684000;
     shippingCost := 150000;
     clearingFees := 85000;
     inspectionFees := 15000;
     documentationFees := 25000;
     kraFees := 5000;
     ntsa_fees := 3000;
     portHandling := 12000;
     ourServiceFee := 85500;
     totalCost := 5339500;
     engineMultiplier := 1.2;
     depreciationFactor_ := 0.95 |}.

End ImportCalculator.

Import ImportCalculator.

(** ** Exact values

    Definitions used to reason about the rounded operations: the value of
    a number as an integer multiple of [2^-bias], and the result of
    rounding written with integer division. *)

Module Exact.

Local Open Scope Z_scope.

(** The exponent of the subnormal numbers, [3 - emax - prec]. *)
Definition emin : Z := -1074.

(** Every exact product or sum of two numbers is a multiple of [2^-bias]. *)
Definition bias : Z := 2200.

(** [m * 2^e], in units of [2^-bias]. *)
Definition zval (m e : Z) : Z := m * 2 ^ (e + bias).

(** The value of a number in units of [2^-bias]; an infinity counts as the
    first power of two beyond the largest finite number. *)
Definition value (x : spec_float) : Z :=
  match x with
  | S754_zero _ | S754_nan => 0
  | S754_infinity s => cond_Zopp s (zval 1 1024)
  | S754_finite s m e => cond_Zopp s (zval (Zpos m) e)
  end.

(** The numbers of the format: what [parseFloat], the literals and the
    operations produce. *)
Definition valid (x : spec_float) : Prop := valid_binary prec emax x = true.

Definition is_nan (x : spec_float) : bool :=
  match x with
  | S754_nan => true
  | _ => false
  end.

(** A positive finite number. *)
Definition pos_finite (x : spec_float) : Prop :=
  exists m e, x = S754_finite false m e.

(** [Y * 2^E] is a positive finite number of the format. *)
Definition representable (Y E : Z) : Prop :=
  0 < Y < 2 ^ 53 /\ emin <= E <= 971.

(** The integer nearest to [m / 2^n], ties to even. *)
Definition round_shift (m n : Z) : Z :=
  let q := m / 2 ^ n in
  match 2 * (m mod 2 ^ n) ?= 2 ^ n with
  | Lt => q
  | Eq => if Z.even q then q else q + 1
  | Gt => q + 1
  end.

(** The number with mantissa [q] and exponent [c], renormalised when [q]
    reached [2^53] and replaced by an infinity when out of range. *)
Definition pack (s : bool) (q c : Z) : spec_float :=
  let '(q', c') := if q =? 2 ^ 53 then (2 ^ 52, c + 1) else (q, c) in
  match q' with
  | Z0 => S754_zero s
  | Zpos p => if c' <=? 971 then S754_finite s p c' else S754_infinity s
  | Zneg _ => S754_nan
  end.

End Exact.

Import Exact.

(** ** The rest of the calculator component

    The state hooks around [calculateCosts]: the two simulated refreshes,
    the Calculate button and the results panel. *)

Module Calculator.

Local Open Scope js_scope.

(** All the state of the component: the fields [calculateCosts] reads,
    [showResults] and [loading]. *)
Record Hooks := {
  inputs : State;
  showResults : bool;
  loading : bool
}.

Definition initialHooks (now : string) : Hooks :=
  {| inputs := initialState now; showResults := false; loading := false |}.

Definition withInputs (h : Hooks) (st : State) : Hooks :=
  {| inputs := st; showResults := showResults h; loading := loading h |}.

(** What [Math.random()] may return: a number of the format that is at
    least 0 and less than 1. *)
Definition isRandom (r : number) : bool :=
  valid_binary prec emax r && leb zero r && ltb r 1.

(** [fetchKRAData], before and after its [await]: [setLoading(true)], then
    [setKRAData] and, in the [finally], [setLoading(false)]; [now] is
    [new Date().toISOString()]. *)
Definition fetchKRAData_start (h : Hooks) : Hooks :=
  {| inputs := inputs h; showResults := showResults h; loading := true |}.

Definition fetchKRAData_done (now : string) (h : Hooks) : Hooks :=
  {| inputs :=
       {| carValue := carValue (inputs h);
          engineSize := engineSize (inputs h);
          age := age (inputs h);
          origin := origin (inputs h);
          kraData :=
            {| importDutyRate := 0.25; (* 25% import duty *)
               exciseDutyRate := 0.25; (* 25% excise duty *)
               vatRate := 0.16; (* 16% VAT *)
               lastUpdated := now |};
          shippingRates := shippingRates (inputs h) |};
     showResults := showResults h;
     loading := false |}.

(** [fetchShippingRates], after its [await]; [random1], [random2] and
    [random3] are the three calls of [Math.random()], in the order of the
    object literal. *)
Definition fetchShippingRates (random1 random2 random3 : number) (h : Hooks)
  : Hooks :=
  withInputs h
    {| carValue := carValue (inputs h);
       engineSize := engineSize (inputs h);
       age := age (inputs h);
       origin := origin (inputs h);
       kraData := kraData (inputs h);
       shippingRates :=
         {[ "japan" := 150000 + random1 * 20000; (* Simulate rate fluctuation *)
            "uk" := 200000 + random2 * 25000;
            "uae" := 180000 + random3 * 22000 ]} |}.

Definition setCarValue (v : string) (h : Hooks) : Hooks :=
  withInputs h
    {| carValue := v; engineSize := engineSize (inputs h);
       age := age (inputs h); origin := origin (inputs h);
       kraData := kraData (inputs h);
       shippingRates := shippingRates (inputs h) |}.

Definition setEngineSize (v : string) (h : Hooks) : Hooks :=
  withInputs h
    {| carValue := carValue (inputs h); engineSize := v;
       age := age (inputs h); origin := origin (inputs h);
       kraData := kraData (inputs h);
       shippingRates := shippingRates (inputs h) |}.

Definition setAge (v : string) (h : Hooks) : Hooks :=
  withInputs h
    {| carValue := carValue (inputs h); engineSize := engineSize (inputs h);
       age := v; origin := origin (inputs h);
       kraData := kraData (inputs h);
       shippingRates := shippingRates (inputs h) |}.

Definition setOrigin (v : string) (h : Hooks) : Hooks :=
  withInputs h
    {| carValue := carValue (inputs h); engineSize := engineSize (inputs h);
       age := age (inputs h); origin := v;
       kraData := kraData (inputs h);
       shippingRates := shippingRates (inputs h) |}.

(** [handleCalculate] *)
Definition handleCalculate (h : Hooks) : Hooks :=
  {| inputs := inputs h; showResults := true; loading := loading h |}.

(** [disabled={!carValue || !engineSize || !age}] of the Calculate button *)
Definition calculateDisabled (h : Hooks) : bool :=
  negb (truthy_string (carValue (inputs h)))
  || negb (truthy_string (engineSize (inputs h)))
  || negb (truthy_string (age (inputs h))).

(** [const results = showResults ? calculateCosts() : null] *)
Definition results (h : Hooks) : option Costs :=
  if showResults h then calculateCosts (inputs h) else None.

(** The results panel: [!showResults ? placeholder : results ? breakdown :
    null]. *)
Inductive Panel :=
| Placeholder
| Breakdown (costs : Costs)
| Blank.

Definition panel (h : Hooks) : Panel :=
  if negb (showResults h) then Placeholder
  else
    match results h with
    | Some costs => Breakdown costs
    | None => Blank
    end.

(** The values the three origin buttons pass to [setOrigin]. *)
Definition originButtons : list string := ["japan"; "uk"; "uae"].

(** What happens to the component: the change handlers of the form, a
    click on Calculate, and the two refreshes (on mount, every five minutes
    and, for the tax rates, from the Update Rates button). *)
Inductive Event :=
| ChangeCarValue (v : string)
| ChangeEngineSize (v : string)
| ChangeAge (v : string)
| ClickOrigin (v : string)
| ClickCalculate
| KRAFetchStarts
| KRAFetchEnds (now : string)
| ShippingFetchEnds (random1 random2 random3 : number).

Definition handle (ev : Event) (h : Hooks) : Hooks :=
  match ev with
  | ChangeCarValue v => setCarValue v h
  | ChangeEngineSize v => setEngineSize v h
  | ChangeAge v => setAge v h
  | ClickOrigin v => setOrigin v h
  | ClickCalculate => handleCalculate h
  | KRAFetchStarts => fetchKRAData_start h
  | KRAFetchEnds now => fetchKRAData_done now h
  | ShippingFetchEnds r1 r2 r3 => fetchShippingRates r1 r2 r3 h
  end.

(** The events the rendered page can deliver: a select offers the empty
    option and the options of its table, the origin buttons are the three
    of [originButtons], a disabled button does not click, and the random
    numbers are in [0, 1). *)
Definition possible (ev : Event) (h : Hooks) : bool :=
  match ev with
  | ChangeCarValue _ => true
  | ChangeEngineSize v =>
      String.eqb v "" || existsb (fun o => String.eqb (engine_value o) v) engineSizeOptions
  | ChangeAge v =>
      String.eqb v "" || existsb (fun o => String.eqb (age_value o) v) ageOptions
  | ClickOrigin v => existsb (String.eqb v) originButtons
  | ClickCalculate => negb (calculateDisabled h)
  | KRAFetchStarts => true
  | KRAFetchEnds _ => true
  | ShippingFetchEnds r1 r2 r3 => isRandom r1 && isRandom r2 && isRandom r3
  end.

(** Running a list of events from a state, stopping at one that cannot
    happen. *)
Fixpoint run (evs : list Event) (h : Hooks) : option Hooks :=
  match evs with
  | [] => Some h
  | ev :: evs' => if possible ev h then run evs' (handle ev h) else None
  end.

(** The states the component can be in. *)
Definition reachable (h : Hooks) : Prop :=
  exists now evs, run evs (initialHooks now) = Some h.

(** [key] has a rate in the table, a number between [low] and [high]. *)
Definition rateWithin (rates : ShippingRates) (key : string)
    (low high : number) : Prop :=
  exists rate,
    rates !! key = Some rate /\ valid rate /\
    leb low rate = true /\ leb rate high = true.

(** What the events keep true: the three tax rates, the origin among the
    three buttons, each shipping rate between its base and its base plus
    its fluctuation, and each selector empty or naming a band. *)
Definition Invariant (h : Hooks) : Prop :=
  importDutyRate (kraData (inputs h)) = 0.25 /\
  exciseDutyRate (kraData (inputs h)) = 0.25 /\
  vatRate (kraData (inputs h)) = 0.16 /\
  In (origin (inputs h)) originButtons /\
  rateWithin (shippingRates (inputs h)) "japan" 150000 170000 /\
  rateWithin (shippingRates (inputs h)) "uk" 200000 225000 /\
  rateWithin (shippingRates (inputs h)) "uae" 180000 202000 /\
  (engineSize (inputs h) = "" \/
   exists band, selectEngine (engineSize (inputs h)) = Some band) /\
  (age (inputs h) = "" \/
   exists band, selectAge (age (inputs h)) = Some band).

(** A state reached by typing a value, choosing the bands of the example
    and the origin uk, and clicking Calculate; and the breakdown it shows
    for 2,500,000. *)
Definition exampleEvents (value : string) : list Event :=
  [ChangeCarValue value; ChangeEngineSize "2000"; ChangeAge "2";
   ClickOrigin "uk"; ClickCalculate].

Definition exampleHooks (value : string) : Hooks :=
  {| inputs :=
       stateOf value "2000" "2" "uk" (initialKRAData "") initialShippingRates;
     showResults := true;
     loading := false |}.

Definition exampleUkCosts : Costs :=
  costsOf 2500000
    {| engine_value := "2000"; engine_label := "1501-2000cc"; multiplier := 1.2 |}
    {| age_value := "2"; age_label := "1-2 years"; depreciationFactor := 0.95 |}
    (initialKRAData "") 200000.

(** An amount that is not negative: [+0], a positive number or
    [+Infinity]. *)
Definition nonneg (x : number) : Prop :=
  x = S754_zero false \/ x = S754_infinity false \/ pos_finite x.

(** The twelve amounts the total adds up, in the order of the sum. *)
Definition components (costs : Costs) : list Value :=
  [Num (adjustedValue costs); Num (importDuty costs); Num (exciseDuty costs);
   Num (vat costs); shippingCost costs; Num (clearingFees costs);
   Num (inspectionFees costs); Num (documentationFees costs);
   Num (kraFees costs); Num (ntsa_fees costs); Num (portHandling costs);
   Num (ourServiceFee costs)].

End Calculator.

(** ** The landing slideshow (src/components/Hero.tsx)

    [currentSlide] only ever holds small integers: it is modelled by [Z],
    and [%] by [Z.rem], the remainder with the sign of the dividend. *)

Module Hero.

Local Open Scope Z_scope.

Record Slide := {
  image : string;
  brand : string;
  model : string;
  description : string
}.

(** Diverse car brands slideshow *)
Definition carSlides : list Slide := [
  {| image := "https://images.pexels.com/photos/116675/pexels-photo-116675.jpeg?auto=compress&cs=tinysrgb&w=1920&h=1080&fit=crop";
     brand := "Toyota"; model := "Land Cruiser";
     description := "Reliable & Powerful" |};
  {| image := "https://images.pexels.com/photos/1719648/pexels-photo-1719648.jpeg?auto=compress&cs=tinysrgb&w=1920&h=1080&fit=crop";
     brand := "Mercedes-Benz"; model := "E-Class";
     description := "Luxury & Elegance" |};
  {| image := "https://images.pexels.com/photos/1592384/pexels-photo-1592384.jpeg?auto=compress&cs=tinysrgb&w=1920&h=1080&fit=crop";
     brand := "BMW"; model := "X5";
     description := "Performance & Style" |};
  {| image := "https://images.pexels.com/photos/1545743/pexels-photo-1545743.jpeg?auto=compress&cs=tinysrgb&w=1920&h=1080&fit=crop";
     brand := "Nissan"; model := "X-Trail";
     description := "Adventure Ready" |};
  {| image := "https://images.pexels.com/photos/1118448/pexels-photo-1118448.jpeg?auto=compress&cs=tinysrgb&w=1920&h=1080&fit=crop";
     brand := "Honda"; model := "CR-V";
     description := "Efficiency & Comfort" |}
].

(** [(prev) => (prev + 1) % carSlides.length], the callback of the timer
    and of [nextSlide] *)
Definition nextSlide (prev : Z) : Z :=
  Z.rem (prev + 1) (Z.of_nat (length carSlides)).

(** [(prev) => (prev - 1 + carSlides.length) % carSlides.length] *)
Definition prevSlide (prev : Z) : Z :=
  Z.rem (prev - 1 + Z.of_nat (length carSlides)) (Z.of_nat (length carSlides)).

(** [carSlides[currentSlide]]; [None] is [undefined]. *)
Definition slideAt (currentSlide : Z) : option Slide :=
  if currentSlide <? 0 then None else carSlides !! Z.to_nat currentSlide.

(** The timer, the two arrows, and the indicator buttons, one for each
    index of [carSlides.map]. *)
Inductive Event :=
| TimerFires
| ClickNext
| ClickPrev
| ClickIndicator (index : nat).

Definition handle (ev : Event) (currentSlide : Z) : Z :=
  match ev with
  | TimerFires => nextSlide currentSlide
  | ClickNext => nextSlide currentSlide
  | ClickPrev => prevSlide currentSlide
  | ClickIndicator index => Z.of_nat index
  end.

Definition possible (ev : Event) : bool :=
  match ev with
  | ClickIndicator index => (index <? length carSlides)%nat
  | _ => true
  end.

Fixpoint run (evs : list Event) (currentSlide : Z) : option Z :=
  match evs with
  | [] => Some currentSlide
  | ev :: evs' => if possible ev then run evs' (handle ev currentSlide) else None
  end.

(** [useState(0)] *)
Definition reachable (currentSlide : Z) : Prop :=
  exists evs, run evs 0 = Some currentSlide.

End Hero.

(** ** The inventory view (src/components/VehicleShowcase.tsx) *)

Module VehicleShowcase.

Definition getStatusColor (status : string) : string :=
  if String.eqb status "in_transit" then "bg-blue-100 text-blue-800"
  else if String.eqb status "arrived" then "bg-green-100 text-green-800"
  else if String.eqb status "clearing" then "bg-yellow-100 text-yellow-800"
  else "bg-gray-100 text-gray-800".

(** The three values of the type of [LiveArrival.status]. *)
Definition statuses : list string := ["in_transit"; "arrived"; "clearing"].

(** The state of the inquiry modal; [None] is [undefined]. *)
Record VehicleInfo := {
  info_make : string;
  info_model : string;
  info_year : number;
  info_price : number
}.

Record InquiryModal := {
  isOpen : bool;
  vehicleId : option string;
  vehicleInfo : option VehicleInfo
}.

(** The panel below the search bar: the spinner, the empty notice, or the
    featured block (when its guard holds) above the full list. *)
Inductive Results (Vehicle : Type) :=
| Spinner
| NoVehiclesFound
| Lists (featured : option (list Vehicle)) (all : list Vehicle).

Arguments Spinner {Vehicle}.
Arguments NoVehiclesFound {Vehicle}.
Arguments Lists {Vehicle} featured all.

Section Vehicles.

(** The vehicle type comes from the hook [useVehicles]; these are the
    fields the component reads. *)
Variable Vehicle : Type.
Variables (id make model : Vehicle -> string).
Variables (year price : Vehicle -> number).

(** [handleInquire] *)
Definition handleInquire (vehicles : list Vehicle) (vehicleId : string)
  : InquiryModal :=
  let vehicle := find (fun v => String.eqb (id v) vehicleId) vehicles in
  {| isOpen := true;
     vehicleId := Some vehicleId;
     vehicleInfo :=
       match vehicle with
       | Some vehicle =>
           Some {| info_make := make vehicle;
                   info_model := model vehicle;
                   info_year := year vehicle;
                   info_price := price vehicle |}
       | None => None
       end |}.

(** [vehicles.slice(0, 3)] *)
Definition slice_0_3 (vehicles : list Vehicle) : list Vehicle :=
  firstn 3 vehicles.

(** The conditional rendering of the results. *)
Definition renderResults (loading : bool) (vehicles : list Vehicle)
  : Results Vehicle :=
  if loading then Spinner
  else if (length vehicles =? 0)%nat then NoVehiclesFound
  else
    Lists
      (if (0 <? length (slice_0_3 vehicles))%nat
       then Some (slice_0_3 vehicles) else None)
      vehicles.

End Vehicles.

(** [onClose] of the modal: [setInquiryModal({ isOpen: false })] *)
Definition closeInquiry : InquiryModal :=
  {| isOpen := false; vehicleId := None; vehicleInfo := None |}.

End VehicleShowcase.

Local Open Scope Z_scope.

(** * Rounding

    What [binary_round_aux], the rounding step shared by the product, the
    sum and the conversion of decimal literals, computes. *)

Lemma emin_eq : SpecFloat.emin prec emax = emin.
Proof. reflexivity. Qed.

Lemma fexp_eq e : fexp prec emax e = Z.max (e - 53) emin.
Proof. reflexivity. Qed.

Lemma digits2_size p : digits2_pos p = Pos.size p.
Proof. induction p; simpl; congruence. Qed.

Lemma digits_bounds p :
  2 ^ (Zpos (digits2_pos p) - 1) <= Zpos p < 2 ^ Zpos (digits2_pos p).
Proof.
  rewrite digits2_size. split.
  - pose proof (Pos.size_le p) as H.
    assert (H' : 2 ^ Zpos (Pos.size p) <= 2 * Zpos p).
    { rewrite <- Pos2Z.inj_pow. change (2 * Zpos p) with (Zpos p~0). lia. }
    replace (Zpos (Pos.size p)) with (Zpos (Pos.size p) - 1 + 1) in H' by lia.
    rewrite Z.pow_add_r in H' by lia. lia.
  - pose proof (Pos.size_gt p) as H. rewrite <- Pos2Z.inj_pow. lia.
Qed.

(** digits is determined by the bounds *)
Lemma digits_unique p d :
  2 ^ (d - 1) <= Zpos p < 2 ^ d -> 0 < d -> Zpos (digits2_pos p) = d.
Proof.
  intros [Hl Hu] Hd. pose proof (digits_bounds p) as [Hl' Hu'].
  destruct (Z.lt_trichotomy (Zpos (digits2_pos p)) d) as [H | [H | H]]; [| exact H |].
  - exfalso. assert (2 ^ Zpos (digits2_pos p) <= 2 ^ (d - 1)) by (apply Z.pow_le_mono_r; lia). lia.
  - exfalso. assert (2 ^ d <= 2 ^ (Zpos (digits2_pos p) - 1)) by (apply Z.pow_le_mono_r; lia). lia.
Qed.

Lemma iter_pos_nat {A} (f : A -> A) p x :
  SpecFloat.iter_pos f p x = Nat.iter (Pos.to_nat p) f x.
Proof.
  revert x. induction p as [p IH | p IH |]; intros x; simpl SpecFloat.iter_pos.
  - rewrite !IH. rewrite <- Nat.iter_succ_r, <- Nat.iter_add. f_equal. lia.
  - rewrite !IH. rewrite <- Nat.iter_add. f_equal. lia.
  - reflexivity.
Qed.

Lemma shr_1_nonneg m r s :
  0 <= m ->
  shr_1 {| shr_m := m; shr_r := r; shr_s := s |} =
    {| shr_m := m / 2; shr_r := Z.odd m; shr_s := r || s |}.
Proof.
  intros Hm. destruct m as [|p|p]; [reflexivity | | lia].
  destruct p as [p|p|]; simpl shr_1.
  - f_equal. rewrite Pos2Z.inj_xI. apply (Z.div_unique _ _ _ 1); lia.
  - f_equal. rewrite Pos2Z.inj_xO. apply (Z.div_unique _ _ _ 0); lia.
  - reflexivity.
Qed.

(** mantissa after k single shifts *)
Lemma shr_iter_m k m r s :
  0 <= m ->
  shr_m (Nat.iter k shr_1 {| shr_m := m; shr_r := r; shr_s := s |}) = m / 2 ^ Z.of_nat k.
Proof.
  intros Hm. induction k as [|k IH].
  - simpl. now rewrite Z.div_1_r.
  - rewrite Nat2Z.inj_succ, Z.pow_succ_r by lia. simpl Nat.iter.
    destruct (Nat.iter k shr_1 _) as [m' r' s'] eqn:E. simpl in IH. subst m'.
    rewrite shr_1_nonneg by (apply Z.div_pos; lia). simpl.
    rewrite Z.mul_comm, <- Z.div_div by lia. reflexivity.
Qed.

(** full record after k >= 1 shifts starting from an exact record *)
Lemma shr_iter_exact k m :
  0 <= m ->
  Nat.iter (S k) shr_1 {| shr_m := m; shr_r := false; shr_s := false |} =
    {| shr_m := m / 2 ^ Z.of_nat (S k);
       shr_r := Z.odd (m / 2 ^ Z.of_nat k);
       shr_s := negb (m mod 2 ^ Z.of_nat k =? 0) |}.
Proof.
  intros Hm. induction k as [|k IH].
  - change (Nat.iter 1 shr_1 ?x) with (shr_1 x).
    rewrite shr_1_nonneg by lia. simpl Z.of_nat.
    rewrite Z.pow_0_r, Z.pow_1_r, Z.div_1_r, Z.mod_1_r. reflexivity.
  - change (Nat.iter (S (S k)) shr_1 ?x) with (shr_1 (Nat.iter (S k) shr_1 x)).
    rewrite IH. rewrite shr_1_nonneg by (apply Z.div_pos; lia).
    f_equal.
    + rewrite (Nat2Z.inj_succ (S k)), Z.pow_succ_r by lia.
      rewrite Z.mul_comm, <- Z.div_div by lia. reflexivity.
    + (* sticky *)
      rewrite (Nat2Z.inj_succ k), Z.pow_succ_r by lia.
      set (P := 2 ^ Z.of_nat k). assert (HP : 0 < P) by (apply Z.pow_pos_nonneg; lia).
      pose proof (Z.div_mod m P ltac:(lia)) as Hdm.
      pose proof (Z.mod_pos_bound m P HP) as Hb.
      pose proof (Z.div_mod (m / P) 2 ltac:(lia)) as Hdm2.
      pose proof (Z.mod_pos_bound (m / P) 2 ltac:(lia)) as Hb2.
      rewrite Zodd_mod.
      assert (Hm2 : m mod (2 * P) = P * ((m / P) mod 2) + m mod P).
      { symmetry. apply (Z.mod_unique_pos _ _ (m / P / 2)); [nia | nia]. }
      rewrite Hm2.
      destruct (Z.eqb_spec ((m / P) mod 2) 1) as [E1|E1];
      destruct (Z.eqb_spec (m mod P) 0) as [E2|E2]; simpl;
      symmetry.
      * apply negb_true_iff, Z.eqb_neq. nia.
      * apply negb_true_iff, Z.eqb_neq. nia.
      * apply negb_false_iff, Z.eqb_eq. assert ((m / P) mod 2 = 0) by lia. nia.
      * apply negb_true_iff, Z.eqb_neq. assert ((m / P) mod 2 = 0) by lia. nia.
Qed.

Lemma round_shift_0 m : round_shift m 0 = m.
Proof.
  unfold round_shift. rewrite Z.pow_0_r, Z.mod_1_r, Z.div_1_r. reflexivity.
Qed.

Lemma shr_round m e n :
  0 <= m -> 0 <= n ->
  let '(mrs, e') := shr {| shr_m := m; shr_r := false; shr_s := false |} e n in
  round_nearest_even (shr_m mrs) (loc_of_shr_record mrs) = round_shift m n /\
  e' = e + n.
Proof.
  intros Hm Hn. destruct n as [|p|p]; [| | lia].
  - simpl. rewrite round_shift_0. split; [reflexivity | lia].
  - unfold shr. split; [| reflexivity].
    rewrite iter_pos_nat.
    destruct (Pos2Nat.is_succ p) as [k Hk]. rewrite Hk.
    rewrite shr_iter_exact by exact Hm.
    assert (Hp : Zpos p = Z.of_nat k + 1) by lia.
    rewrite <- Hk, positive_nat_Z.
    unfold round_shift. rewrite Hp.
    set (K := Z.of_nat k). assert (HK : 0 <= K) by lia.
    rewrite Z.pow_add_r, Z.pow_1_r by lia.
    set (P := 2 ^ K). assert (HP : 0 < P) by (apply Z.pow_pos_nonneg; lia).
    pose proof (Z.div_mod m P ltac:(lia)) as Hdm.
    pose proof (Z.mod_pos_bound m P HP) as Hb.
    pose proof (Z.div_mod (m / P) 2 ltac:(lia)) as Hdm2.
    pose proof (Z.mod_pos_bound (m / P) 2 ltac:(lia)) as Hb2.
    assert (Hm2 : m mod (P * 2) = P * ((m / P) mod 2) + m mod P).
    { symmetry. apply (Z.mod_unique_pos _ _ (m / P / 2)); nia. }
    rewrite Hm2. rewrite Zodd_mod. simpl shr_m.
    replace (m / (P * 2)) with (m / P / 2) by (rewrite Z.div_div by lia; reflexivity).
    destruct (Z.eqb_spec ((m / P) mod 2) 1) as [E1|E1];
    destruct (Z.eqb_spec (m mod P) 0) as [E2|E2]; simpl loc_of_shr_record;
      unfold round_nearest_even.
    + replace (2 * (P * ((m / P) mod 2) + m mod P) ?= P * 2) with Eq
        by (symmetry; apply Z.compare_eq_iff; nia). reflexivity.
    + replace (2 * (P * ((m / P) mod 2) + m mod P) ?= P * 2) with Gt
        by (symmetry; apply Z.compare_gt_iff; nia). reflexivity.
    + replace (2 * (P * ((m / P) mod 2) + m mod P) ?= P * 2) with Lt
        by (symmetry; apply Z.compare_lt_iff; nia). reflexivity.
    + replace (2 * (P * ((m / P) mod 2) + m mod P) ?= P * 2) with Lt
        by (symmetry; apply Z.compare_lt_iff; nia). reflexivity.
Qed.

(** bounds on round_shift *)
Lemma round_shift_le m n Y :
  0 <= n -> m <= Y * 2 ^ n -> round_shift m n <= Y.
Proof.
  intros Hn H. unfold round_shift.
  set (P := 2 ^ n) in *. assert (HP : 0 < P) by (apply Z.pow_pos_nonneg; lia).
  pose proof (Z.div_mod m P ltac:(lia)) as Hdm.
  pose proof (Z.mod_pos_bound m P HP) as Hb.
  assert (Hq : m / P <= Y) by (apply Z.div_le_upper_bound; lia).
  destruct (Z.compare_spec (2 * (m mod P)) P) as [E|E|E].
  - destruct (Z.even (m / P)); [lia |]. nia.
  - lia.
  - nia.
Qed.

Lemma round_shift_ge m n Y :
  0 <= n -> Y * 2 ^ n <= m -> Y <= round_shift m n.
Proof.
  intros Hn H. unfold round_shift.
  set (P := 2 ^ n) in *. assert (HP : 0 < P) by (apply Z.pow_pos_nonneg; lia).
  assert (Hq : Y <= m / P) by (apply Z.div_le_lower_bound; lia).
  destruct (2 * (m mod P) ?= P); [destruct (Z.even (m / P)) | |]; lia.
Qed.

Lemma round_shift_nonneg m n : 0 <= n -> 0 <= m -> 0 <= round_shift m n.
Proof. intros Hn Hm. apply round_shift_ge; [exact Hn | lia]. Qed.

(** the second normalisation step of binary_round_aux *)
Lemma shr_fexp_norm q c :
  0 <= q <= 2 ^ 53 -> emin <= c ->
  let '(mrs, e') := shr_fexp prec emax q c loc_Exact in
  (shr_m mrs, e') = if q =? 2 ^ 53 then (2 ^ 52, c + 1) else (q, c).
Proof.
  intros Hq Hc. unfold shr_fexp.
  destruct (Z.eqb_spec q (2 ^ 53)) as [E|E].
  - subst q. rewrite fexp_eq. unfold emin in *.
    replace (Z.max (Zdigits2 (2 ^ 53) + c - 53) (-1074) - c) with 1
      by (change (Zdigits2 (2 ^ 53)) with 54; lia).
    reflexivity.
  - destruct q as [|p|p]; [| | lia].
    + rewrite fexp_eq. unfold emin in *. simpl Zdigits2.
      replace (Z.max (0 + c - 53) (-1074) - c) with (Z.max (-53) (-1074 - c)) by lia.
      destruct (Z.max (-53) (-1074 - c)) eqn:E'; try lia; reflexivity.
    + assert (Hd : Zpos (digits2_pos p) <= 53).
      { pose proof (digits_bounds p) as [Hl _].
        destruct (Z_le_gt_dec (Zpos (digits2_pos p)) 53) as [?|Hgt]; [assumption |].
        exfalso. assert (2 ^ 53 <= 2 ^ (Zpos (digits2_pos p) - 1))
          by (apply Z.pow_le_mono_r; lia). lia. }
      rewrite fexp_eq. unfold emin in *. simpl Zdigits2.
      destruct (Z.max (Zpos (digits2_pos p) + c - 53) (-1074) - c) eqn:E'; try lia; reflexivity.
Qed.

Lemma bra_exact s m e :
  0 < m -> e <= fexp prec emax (Zdigits2 m + e) ->
  binary_round_aux prec emax s m e loc_Exact =
    pack s (round_shift m (fexp prec emax (Zdigits2 m + e) - e))
           (fexp prec emax (Zdigits2 m + e)).
Proof.
  intros Hm He. unfold binary_round_aux.
  set (c := fexp prec emax (Zdigits2 m + e)) in *.
  unfold shr_fexp at 1. fold c. cbn [shr_record_of_loc].
  pose proof (shr_round m e (c - e) ltac:(lia) ltac:(lia)) as H1.
  destruct (shr _ e (c - e)) as [mrs e'] eqn:E1.
  destruct H1 as [H1 H1'].
  rewrite H1.
  set (q := round_shift m (c - e)).
  assert (Hq : 0 <= q <= 2 ^ 53).
  { split; [apply round_shift_nonneg; lia |].
    apply round_shift_le; [lia |].
    destruct m as [|p|p]; try lia. simpl Zdigits2 in *.
    pose proof (digits_bounds p) as [_ Hu].
    subst c. rewrite fexp_eq in *.
    rewrite <- Z.pow_add_r by lia.
    assert (2 ^ Zpos (digits2_pos p) <= 2 ^ (53 + (Z.max (Zpos (digits2_pos p) + e - 53) emin - e)))
      by (apply Z.pow_le_mono_r; lia). lia. }
  assert (Hc : emin <= c) by (subst c; rewrite fexp_eq; lia).
  pose proof (shr_fexp_norm q c Hq Hc) as H2.
  replace e' with c by lia.
  destruct (shr_fexp prec emax q c loc_Exact) as [mrs2 e2].
  unfold pack. destruct (q =? 2 ^ 53); injection H2 as -> ->; reflexivity.
Qed.

Lemma pow2_pos k : 0 <= k -> 0 < 2 ^ k.
Proof. intros; apply Z.pow_pos_nonneg; lia. Qed.

Lemma zval_pos m e : 0 < m -> - bias <= e -> 0 < zval m e.
Proof. intros Hm He. unfold zval. pose proof (pow2_pos (e + bias)). nia. Qed.

Lemma zval_shift m e k :
  0 <= k -> - bias <= e -> zval m (e + k) = zval (m * 2 ^ k) e.
Proof.
  intros Hk He. unfold zval.
  replace (e + k + bias) with (k + (e + bias)) by lia.
  rewrite Z.pow_add_r by lia. ring.
Qed.

Lemma zval_le_mono m m' e : - bias <= e -> m <= m' -> zval m e <= zval m' e.
Proof. intros He H. unfold zval. pose proof (pow2_pos (e + bias)). nia. Qed.

Lemma zval_le_inv m m' e : - bias <= e -> zval m e <= zval m' e -> m <= m'.
Proof. intros He H. unfold zval in H. pose proof (pow2_pos (e + bias)). nia. Qed.

Lemma zval_lt_inv m m' e : - bias <= e -> zval m e < zval m' e -> m < m'.
Proof. intros He H. unfold zval in H. pose proof (pow2_pos (e + bias)). nia. Qed.

Lemma valid_finite_inv s m e :
  valid (S754_finite s m e) ->
  emin <= e <= 971 /\ Zpos (digits2_pos m) <= 53 /\
  (e = emin \/ Zpos (digits2_pos m) = 53) /\
  0 < Zpos m < 2 ^ 53 /\ (emin < e -> 2 ^ 52 <= Zpos m).
Proof.
  unfold valid, valid_binary, bounded, canonical_mantissa.
  rewrite fexp_eq. intros H. apply andb_true_iff in H as [H1 H2].
  apply Z.eqb_eq in H1. apply Z.leb_le in H2. change (emax - prec) with 971 in H2.
  pose proof (digits_bounds m) as [Hl Hu].
  assert (Hd : Zpos (digits2_pos m) <= 53) by lia.
  repeat split; try lia.
  - assert (2 ^ Zpos (digits2_pos m) <= 2 ^ 53) by (apply Z.pow_le_mono_r; lia). lia.
  - intros He. assert (Zpos (digits2_pos m) = 53) as Hd' by lia.
    rewrite Hd' in Hl. exact Hl.
Qed.

Lemma valid_finite_intro s m e :
  emin <= e <= 971 -> 0 < Zpos m < 2 ^ 53 -> (emin < e -> 2 ^ 52 <= Zpos m) ->
  valid (S754_finite s m e).
Proof.
  intros He Hm Hn.
  unfold valid, valid_binary, bounded, canonical_mantissa.
  rewrite fexp_eq. apply andb_true_iff. split; [| apply Z.leb_le; change (emax - prec) with 971; lia].
  apply Z.eqb_eq.
  pose proof (digits_bounds m) as [Hl Hu].
  assert (Hd : Zpos (digits2_pos m) <= 53).
  { destruct (Z_le_gt_dec (Zpos (digits2_pos m)) 53) as [?|Hgt]; [assumption |].
    exfalso. assert (2 ^ 53 <= 2 ^ (Zpos (digits2_pos m) - 1))
      by (apply Z.pow_le_mono_r; lia). lia. }
  destruct (Z.eq_dec e emin) as [->|Hne]; [lia |].
  assert (Zpos (digits2_pos m) = 53); [| lia].
  apply digits_unique; [| lia]. split; [apply Hn; lia | lia].
Qed.

(** comparison of positive canonical mantissa/exponent pairs *)
Lemma compare_canonical m1 e1 m2 e2 :
  valid (S754_finite false m1 e1) -> valid (S754_finite false m2 e2) ->
  match e1 ?= e2 with
  | Lt => Lt
  | Gt => Gt
  | Eq => Pos.compare_cont Eq m1 m2
  end = (zval (Zpos m1) e1 ?= zval (Zpos m2) e2).
Proof.
  intros H1 H2.
  apply valid_finite_inv in H1 as (He1 & _ & _ & Hm1 & Hn1).
  apply valid_finite_inv in H2 as (He2 & _ & _ & Hm2 & Hn2).
  unfold emin, bias in *.
  destruct (Z.compare_spec e1 e2) as [E|E|E]; symmetry.
  - subst e2. change (Pos.compare_cont Eq m1 m2) with (Zpos m1 ?= Zpos m2).
    unfold zval. pose proof (pow2_pos (e1 + bias)).
    destruct (Z.compare_spec (Zpos m1) (Zpos m2)) as [E'|E'|E'].
    + apply Z.compare_eq_iff. congruence.
    + apply Z.compare_lt_iff. unfold bias in *. nia.
    + apply Z.compare_gt_iff. unfold bias in *. nia.
  - apply Z.compare_lt_iff.
    replace e2 with (e1 + (e2 - e1)) by lia. rewrite zval_shift by (unfold bias; lia).
    apply Z.lt_le_trans with (zval (2 ^ 53) e1).
    + unfold zval. pose proof (pow2_pos (e1 + bias)). unfold bias in *. nia.
    + apply zval_le_mono; [unfold bias; lia |].
      assert (2 ^ 1 <= 2 ^ (e2 - e1)) by (apply Z.pow_le_mono_r; lia).
      change (2 ^ 53) with (2 ^ 52 * 2 ^ 1). nia.
  - apply Z.compare_gt_iff.
    replace e1 with (e2 + (e1 - e2)) by lia. rewrite zval_shift by (unfold bias; lia).
    apply Z.lt_le_trans with (zval (2 ^ 53) e2).
    + unfold zval. pose proof (pow2_pos (e2 + bias)). unfold bias in *. nia.
    + apply zval_le_mono; [unfold bias; lia |].
      assert (2 ^ 1 <= 2 ^ (e1 - e2)) by (apply Z.pow_le_mono_r; lia).
      change (2 ^ 53) with (2 ^ 52 * 2 ^ 1). nia.
Qed.

Lemma value_finite_bound s m e :
  valid (S754_finite s m e) -> 0 < zval (Zpos m) e < zval 1 1024.
Proof.
  intros H. apply valid_finite_inv in H as (He & _ & _ & Hm & _).
  unfold emin in *. split; [apply zval_pos; unfold bias; lia |].
  replace 1024 with (e + (1024 - e)) by lia. rewrite zval_shift by (unfold bias; lia).
  unfold zval. pose proof (pow2_pos (e + bias)).
  assert (2 ^ 53 <= 2 ^ (1024 - e)) by (apply Z.pow_le_mono_r; lia).
  unfold bias in *. nia.
Qed.

(** the order of valid numbers is the order of their values *)
Lemma compare_value x y :
  valid x -> valid y -> is_nan x = false -> is_nan y = false ->
  SFcompare x y = Some (value x ?= value y).
Proof.
  intros Hx Hy Nx Ny.
  assert (Hinf : 0 < zval 1 1024) by (apply zval_pos; unfold bias; lia).
  destruct x as [sx|sx| |sx mx ex]; try discriminate;
  destruct y as [sy|sy| |sy my ey]; try discriminate;
  try (pose proof (value_finite_bound _ _ _ Hx) as Bx);
  try (pose proof (value_finite_bound _ _ _ Hy) as By);
  cbn [SFcompare value]; f_equal;
  try (destruct sx); try (destruct sy); cbn [cond_Zopp]; try reflexivity;
  try (symmetry;
       solve [apply Z.compare_eq_iff; lia | apply Z.compare_lt_iff; lia
             | apply Z.compare_gt_iff; lia]).
  - pose proof (compare_canonical _ _ _ _ Hy Hx) as C.
    rewrite Z.compare_opp, <- C, (Z.compare_antisym ey ex).
    destruct (ey ?= ex); try reflexivity.
    cbn [CompOpp]. rewrite Pos.compare_cont_antisym. reflexivity.
  - exact (compare_canonical _ _ _ _ Hx Hy).
Qed.

Lemma leb_value x y :
  valid x -> valid y -> is_nan x = false -> is_nan y = false ->
  value x <= value y -> leb x y = true.
Proof.
  intros Hx Hy Nx Ny H. unfold leb, SFleb. rewrite compare_value by assumption.
  destruct (Z.compare_spec (value x) (value y)); try reflexivity; lia.
Qed.

Lemma ltb_value x y :
  valid x -> valid y -> is_nan x = false -> is_nan y = false ->
  value x < value y -> ltb x y = true.
Proof.
  intros Hx Hy Nx Ny H. unfold ltb, SFltb. rewrite compare_value by assumption.
  destruct (Z.compare_spec (value x) (value y)); try reflexivity; lia.
Qed.

Lemma leb_value_inv x y :
  valid x -> valid y -> leb x y = true -> value x <= value y.
Proof.
  intros Hx Hy H. unfold leb, SFleb in H.
  destruct (is_nan x) eqn:Nx; [destruct x; discriminate |].
  destruct (is_nan y) eqn:Ny; [destruct x, y; discriminate |].
  rewrite compare_value in H by assumption.
  destruct (Z.compare_spec (value x) (value y)); try discriminate; lia.
Qed.

Lemma ltb_value_inv x y :
  valid x -> valid y -> ltb x y = true -> value x < value y.
Proof.
  intros Hx Hy H. unfold ltb, SFltb in H.
  destruct (is_nan x) eqn:Nx; [destruct x; discriminate |].
  destruct (is_nan y) eqn:Ny; [destruct x, y; discriminate |].
  rewrite compare_value in H by assumption.
  destruct (Z.compare_spec (value x) (value y)); try discriminate; lia.
Qed.

(** ** what pack builds *)

Lemma pack_valid s q c :
  0 <= q <= 2 ^ 53 -> emin <= c -> (emin < c -> 2 ^ 52 <= q) ->
  valid (pack s q c).
Proof.
  intros Hq Hc Hn. unfold pack.
  destruct (Z.eqb_spec q (2 ^ 53)) as [E|E].
  - change (2 ^ 52) with 4503599627370496.
    destruct (Z.leb_spec (c + 1) 971); [| reflexivity].
    apply valid_finite_intro; unfold emin in *; lia.
  - destruct q as [|p|p]; [reflexivity | | lia].
    destruct (Z.leb_spec c 971); [| reflexivity].
    apply valid_finite_intro; lia.
Qed.

Lemma pack_not_nan s q c : 0 <= q -> is_nan (pack s q c) = false.
Proof.
  intros Hq. unfold pack.
  destruct (q =? 2 ^ 53).
  - change (2 ^ 52) with 4503599627370496. destruct (c + 1 <=? 971); reflexivity.
  - destruct q as [|p|p]; [reflexivity | | lia]. destruct (c <=? 971); reflexivity.
Qed.

(** the value of a packed positive number: exact when it is in range *)
Lemma pack_value_finite q c :
  0 <= q <= 2 ^ 53 -> - bias <= c ->
  is_finite (pack false q c) = true -> value (pack false q c) = zval q c.
Proof.
  intros Hq Hc. unfold pack.
  destruct (Z.eqb_spec q (2 ^ 53)) as [E|E].
  - change (2 ^ 52) with 4503599627370496.
    destruct (c + 1 <=? 971); [| discriminate]. intros _.
    cbn [value cond_Zopp]. subst q. rewrite zval_shift by lia. reflexivity.
  - destruct q as [|p|p]; [reflexivity | | lia].
    destruct (c <=? 971); [| discriminate]. reflexivity.
Qed.

Lemma pack_value_le q c :
  0 <= q <= 2 ^ 53 -> - bias <= c ->
  value (pack false q c) <= Z.max (zval q c) (zval 1 1024).
Proof.
  intros Hq Hc.
  destruct (is_finite (pack false q c)) eqn:F.
  - rewrite pack_value_finite by assumption. lia.
  - unfold pack in *. destruct (q =? 2 ^ 53).
    + change (2 ^ 52) with 4503599627370496 in *.
      destruct (c + 1 <=? 971); [discriminate |]. cbn [value cond_Zopp]. lia.
    + destruct q as [|p|p]; [discriminate | | lia].
      destruct (c <=? 971); [discriminate |]. cbn [value cond_Zopp]. lia.
Qed.

Lemma pack_finite q c :
  0 <= q <= 2 ^ 53 -> (if q =? 2 ^ 53 then c + 1 else c) <= 971 ->
  is_finite (pack false q c) = true.
Proof.
  intros Hq Hc. unfold pack. destruct (q =? 2 ^ 53).
  - change (2 ^ 52) with 4503599627370496.
    destruct (Z.leb_spec (c + 1) 971); [reflexivity | lia].
  - destruct q as [|p|p]; [reflexivity | | lia].
    destruct (Z.leb_spec c 971); [reflexivity | lia].
Qed.

Lemma pack_infinite_value q c :
  0 <= q <= 2 ^ 53 ->
  is_finite (pack false q c) = false -> value (pack false q c) = zval 1 1024.
Proof.
  intros Hq. unfold pack. destruct (q =? 2 ^ 53).
  - change (2 ^ 52) with 4503599627370496.
    destruct (c + 1 <=? 971); [discriminate | reflexivity].
  - destruct q as [|p|p]; [discriminate | | lia].
    destruct (c <=? 971); [discriminate | reflexivity].
Qed.

(** ** rounding a positive exact value m * 2^e *)

Section Round.
Variables (m : positive) (e : Z).
Hypothesis He : - bias <= e.
Hypothesis Hshift : e <= fexp prec emax (Zpos (digits2_pos m) + e).

Let c := fexp prec emax (Zpos (digits2_pos m) + e).
Let q := round_shift (Zpos m) (c - e).

Lemma round_c_bounds : emin <= c /\ e <= c /\ Zpos (digits2_pos m) + e - 53 <= c.
Proof. subst c. rewrite fexp_eq in *. lia. Qed.

Lemma round_q_bounds : 0 <= q <= 2 ^ 53 /\ (emin < c -> 2 ^ 52 <= q).
Proof.
  pose proof round_c_bounds as (Hc1 & Hc2 & Hc3).
  pose proof (digits_bounds m) as [Hl Hu].
  split; [split |].
  - apply round_shift_nonneg; lia.
  - apply round_shift_le; [lia |].
    rewrite <- Z.pow_add_r by lia.
    assert (2 ^ Zpos (digits2_pos m) <= 2 ^ (53 + (c - e)))
      by (apply Z.pow_le_mono_r; lia). lia.
  - intros Hn. apply round_shift_ge; [lia |].
    assert (Hc : c = Zpos (digits2_pos m) + e - 53)
      by (subst c; rewrite fexp_eq in *; lia).
    rewrite <- Z.pow_add_r by lia.
    replace (52 + (c - e)) with (Zpos (digits2_pos m) - 1) by lia. exact Hl.
Qed.

Lemma round_eq : binary_round_aux prec emax false (Zpos m) e loc_Exact = pack false q c.
Proof. apply (bra_exact false (Zpos m) e); [lia | exact Hshift]. Qed.

Lemma round_valid s : valid (binary_round_aux prec emax s (Zpos m) e loc_Exact).
Proof.
  rewrite (bra_exact s (Zpos m) e) by (lia || exact Hshift).
  pose proof round_c_bounds as (Hc1 & Hc2 & Hc3).
  pose proof round_q_bounds as (Hq1 & Hq2).
  apply pack_valid; assumption.
Qed.

(** an upper bound in the format bounds the rounded value *)
Lemma round_upper Y E :
  representable Y E -> zval (Zpos m) e <= zval Y E ->
  is_finite (binary_round_aux prec emax false (Zpos m) e loc_Exact) = true /\
  value (binary_round_aux prec emax false (Zpos m) e loc_Exact) <= zval Y E.
Proof.
  intros [HY HE] H. rewrite round_eq.
  pose proof round_c_bounds as (Hc1 & Hc2 & Hc3).
  pose proof round_q_bounds as (Hq1 & Hq2).
  pose proof (digits_bounds m) as [Hl Hu].
  unfold emin in *.
  (* the grid of the result is at most as coarse as that of the bound *)
  assert (HcE : c <= E).
  { assert (Hlt : zval (2 ^ (Zpos (digits2_pos m) - 1)) e < zval (2 ^ 53) E).
    { apply Z.le_lt_trans with (zval (Zpos m) e); [apply zval_le_mono; lia |].
      apply Z.le_lt_trans with (zval Y E); [exact H |].
      unfold zval. pose proof (pow2_pos (E + bias)). unfold bias in *. nia. }
    unfold zval in Hlt. rewrite <- !Z.pow_add_r in Hlt by (unfold bias in *; lia).
    apply Z.pow_lt_mono_r_iff in Hlt; [| lia | unfold bias; lia].
    subst c. rewrite fexp_eq in *. unfold emin. lia. }
  assert (Hq : q <= Y * 2 ^ (E - c)).
  { apply round_shift_le; [lia |].
    rewrite <- Z.mul_assoc, <- Z.pow_add_r by lia.
    apply (zval_le_inv _ _ e He).
    rewrite <- zval_shift by lia. replace (e + (E - c + (c - e))) with E by lia.
    exact H. }
  assert (Hz : zval q c <= zval Y E).
  { replace E with (c + (E - c)) by lia. rewrite zval_shift by (unfold bias in *; lia).
    apply zval_le_mono; [unfold bias in *; lia | exact Hq]. }
  assert (F : is_finite (pack false q c) = true).
  { apply pack_finite; [exact Hq1 |].
    destruct (Z.eqb_spec q (2 ^ 53)) as [Eq|Eq]; [| lia].
    destruct (Z.eq_dec c E) as [->|]; [| lia].
    exfalso. rewrite Z.sub_diag, Z.pow_0_r in Hq. lia. }
  split; [exact F |].
  rewrite pack_value_finite; [exact Hz | exact Hq1 | unfold bias in *; lia | exact F].
Qed.

(** a lower bound in the format bounds the rounded value *)
Lemma round_lower Y E :
  representable Y E -> zval Y E <= zval (Zpos m) e ->
  zval Y E <= value (binary_round_aux prec emax false (Zpos m) e loc_Exact).
Proof.
  intros [HY HE] H. rewrite round_eq.
  pose proof round_c_bounds as (Hc1 & Hc2 & Hc3).
  pose proof round_q_bounds as (Hq1 & Hq2).
  unfold emin in *.
  assert (Hinf : zval Y E <= zval 1 1024).
  { replace 1024 with (E + (1024 - E)) by lia. rewrite zval_shift by (unfold bias in *; lia).
    apply zval_le_mono; [unfold bias in *; lia |].
    assert (2 ^ 53 <= 2 ^ (1024 - E)) by (apply Z.pow_le_mono_r; lia). lia. }
  destruct (is_finite (pack false q c)) eqn:F;
    [| rewrite pack_infinite_value by assumption; exact Hinf].
  rewrite pack_value_finite by (assumption || unfold bias in *; lia).
  destruct (Z_le_gt_dec c E) as [HcE|HcE].
  - replace E with (c + (E - c)) by lia. rewrite zval_shift by (unfold bias in *; lia).
    apply zval_le_mono; [unfold bias in *; lia |].
    apply round_shift_ge; [lia |].
    rewrite <- Z.mul_assoc, <- Z.pow_add_r by lia.
    apply (zval_le_inv _ _ e He).
    rewrite <- zval_shift by lia. replace (e + (E - c + (c - e))) with E by lia.
    exact H.
  - apply Z.le_trans with (zval (2 ^ 52) c).
    + replace c with (E + (c - E)) by lia. rewrite zval_shift by (unfold bias in *; lia).
      apply zval_le_mono; [unfold bias in *; lia |].
      assert (2 ^ 1 <= 2 ^ (c - E)) by (apply Z.pow_le_mono_r; lia).
      change (2 ^ 53) with (2 ^ 52 * 2 ^ 1) in HY. nia.
    + apply zval_le_mono; [unfold bias in *; lia |]. apply Hq2. lia.
Qed.

End Round.

Lemma pos_finite_intro x :
  is_finite x = true -> 0 < value x -> pos_finite x.
Proof.
  destruct x as [s|s| |[|] m e]; cbn; intros F H; try discriminate; try lia.
  - exfalso. assert (0 < zval (Zpos m) e \/ zval (Zpos m) e = 0).
    { unfold zval. destruct (Z_lt_le_dec (e + bias) 0) as [Hn|Hn].
      - right. rewrite Z.pow_neg_r by lia. lia.
      - left. pose proof (pow2_pos (e + bias) Hn). nia. }
    lia.
  - exists m, e. reflexivity.
Qed.

Lemma pos_finite_value x : pos_finite x -> valid x -> 0 < value x < zval 1 1024.
Proof. intros (m & e & ->) V. exact (value_finite_bound _ _ _ V). Qed.

(** ** products *)

Lemma digits_mul p q :
  Zpos (digits2_pos p) + Zpos (digits2_pos q) - 1 <= Zpos (digits2_pos (p * q)).
Proof.
  pose proof (digits_bounds p) as [Hp _].
  pose proof (digits_bounds q) as [Hq _].
  pose proof (digits_bounds (p * q)) as [_ Hpq].
  rewrite Pos2Z.inj_mul in Hpq.
  assert (H : 2 ^ (Zpos (digits2_pos p) - 1 + (Zpos (digits2_pos q) - 1))
              < 2 ^ Zpos (digits2_pos (p * q))).
  { rewrite Z.pow_add_r by lia.
    pose proof (pow2_pos (Zpos (digits2_pos p) - 1)).
    pose proof (pow2_pos (Zpos (digits2_pos q) - 1)). nia. }
  apply Z.pow_lt_mono_r_iff in H; lia.
Qed.

Lemma mul_shift sx mx ex sy my ey :
  valid (S754_finite sx mx ex) -> valid (S754_finite sy my ey) ->
  ex + ey <= fexp prec emax (Zpos (digits2_pos (mx * my)) + (ex + ey)).
Proof.
  intros Hx Hy.
  apply valid_finite_inv in Hx as (Hex & Hdx & Hnx & _ & _).
  apply valid_finite_inv in Hy as (Hey & Hdy & Hny & _ & _).
  pose proof (digits_mul mx my) as Hd.
  assert (1 <= Zpos (digits2_pos mx)) by lia.
  assert (1 <= Zpos (digits2_pos my)) by lia.
  rewrite fexp_eq. unfold emin in *. lia.
Qed.

Lemma zval_mul m1 e1 m2 e2 :
  - bias <= e1 + e2 -> - bias <= e1 -> - bias <= e2 ->
  zval (m1 * m2) (e1 + e2) * 2 ^ bias = zval m1 e1 * zval m2 e2.
Proof.
  intros H H1 H2. unfold zval.
  assert (E : 2 ^ (e1 + e2 + bias) * 2 ^ bias = 2 ^ (e1 + bias) * 2 ^ (e2 + bias)).
  { rewrite <- !Z.pow_add_r by (unfold bias in *; lia). f_equal. lia. }
  rewrite <- Z.mul_assoc, E. ring.
Qed.

Lemma mul_valid x y : valid x -> valid y -> valid (mul x y).
Proof.
  intros Hx Hy.
  destruct x as [sx|sx| |sx mx ex]; destruct y as [sy|sy| |sy my ey];
    try reflexivity.
  cbn [mul SFmul].
  pose proof (mul_shift _ _ _ _ _ _ Hx Hy) as Hs.
  apply valid_finite_inv in Hx as (Hex & _). apply valid_finite_inv in Hy as (Hey & _).
  apply round_valid; first [exact Hs | unfold emin, bias in *; lia].
Qed.

Section Mul.
Variables (x y : spec_float).
Hypotheses (Vx : valid x) (Vy : valid y).
Hypotheses (Px : pos_finite x) (Py : pos_finite y).

Lemma mul_upper Y E :
  representable Y E -> value x * value y <= zval Y E * 2 ^ bias ->
  is_finite (mul x y) = true /\ value (mul x y) <= zval Y E.
Proof.
  destruct Px as (mx & ex & ->), Py as (my & ey & ->).
  intros R H. cbn [mul SFmul xorb].
  pose proof (valid_finite_inv _ _ _ Vx) as (Hex & _).
  pose proof (valid_finite_inv _ _ _ Vy) as (Hey & _).
  unfold emin in *.
  apply round_upper; [unfold bias; lia | exact (mul_shift _ _ _ _ _ _ Vx Vy) | exact R |].
  cbn [value cond_Zopp] in H.
  rewrite <- zval_mul in H by (unfold bias; lia).
  rewrite Pos2Z.inj_mul. pose proof (pow2_pos bias ltac:(unfold bias; lia)). nia.
Qed.

Lemma mul_lower Y E :
  representable Y E -> zval Y E * 2 ^ bias <= value x * value y ->
  zval Y E <= value (mul x y).
Proof.
  destruct Px as (mx & ex & ->), Py as (my & ey & ->).
  intros R H. cbn [mul SFmul xorb].
  pose proof (valid_finite_inv _ _ _ Vx) as (Hex & _).
  pose proof (valid_finite_inv _ _ _ Vy) as (Hey & _).
  unfold emin in *.
  apply round_lower; [unfold bias; lia | exact (mul_shift _ _ _ _ _ _ Vx Vy) | exact R |].
  cbn [value cond_Zopp] in H.
  rewrite <- zval_mul in H by (unfold bias; lia).
  rewrite Pos2Z.inj_mul. pose proof (pow2_pos bias ltac:(unfold bias; lia)). nia.
Qed.
End Mul.

(** ** sums *)

Lemma iter_xO m d : Zpos (Pos.iter xO m d) = Zpos m * 2 ^ Zpos d.
Proof.
  induction d as [|d IH] using Pos.peano_ind.
  - cbn [Pos.iter]. rewrite Pos2Z.inj_xO. lia.
  - rewrite Pos.iter_succ, Pos2Z.inj_xO, IH, Pos2Z.inj_succ, Z.pow_succ_r by lia. ring.
Qed.

Lemma shl_align_spec m e e' :
  snd (shl_align m e e') = Z.min e e' /\
  Zpos (fst (shl_align m e e')) = Zpos m * 2 ^ (e - Z.min e e').
Proof.
  unfold shl_align. destruct (e' - e) as [|d|d] eqn:E; cbn [fst snd].
  - replace (Z.min e e') with e by lia. rewrite Z.sub_diag. lia.
  - replace (Z.min e e') with e by lia. rewrite Z.sub_diag. lia.
  - replace (Z.min e e') with e' by lia. split; [reflexivity |].
    rewrite iter_xO. f_equal. f_equal. lia.
Qed.

Lemma digits_shift m k p :
  0 <= k -> Zpos p = Zpos m * 2 ^ k ->
  Zpos (digits2_pos p) = Zpos (digits2_pos m) + k.
Proof.
  intros Hk H. pose proof (digits_bounds m) as [Hl Hu].
  pose proof (pow2_pos k Hk).
  apply digits_unique; [| lia]. rewrite H. split.
  - replace (Zpos (digits2_pos m) + k - 1) with (Zpos (digits2_pos m) - 1 + k) by lia.
    rewrite Z.pow_add_r by lia. nia.
  - rewrite Z.pow_add_r by lia. nia.
Qed.

Section BinaryRound.
Variables (m : positive) (e : Z).
Hypothesis He : - bias <= e.

Let mz := fst (shl_align m e (fexp prec emax (Zpos (digits2_pos m) + e))).
Let ez := snd (shl_align m e (fexp prec emax (Zpos (digits2_pos m) + e))).

Lemma binary_round_eq s :
  binary_round prec emax s m e = binary_round_aux prec emax s (Zpos mz) ez loc_Exact.
Proof.
  unfold binary_round, mz, ez. destruct (shl_align _ _ _). reflexivity.
Qed.

Lemma aligned_facts :
  - bias <= ez /\ ez <= fexp prec emax (Zpos (digits2_pos mz) + ez) /\
  zval (Zpos mz) ez = zval (Zpos m) e.
Proof.
  pose proof (shl_align_spec m e (fexp prec emax (Zpos (digits2_pos m) + e))) as [H1 H2].
  fold mz in H2. fold ez in H1.
  set (c := fexp prec emax (Zpos (digits2_pos m) + e)) in *.
  assert (Hc : emin <= c) by (subst c; rewrite fexp_eq; lia).
  assert (Hd : Zpos (digits2_pos mz) + ez = Zpos (digits2_pos m) + e).
  { rewrite (digits_shift m (e - Z.min e c) mz) by (lia || exact H2). lia. }
  unfold emin in *. split; [unfold bias in *; lia |]. split.
  - rewrite Hd. fold c. lia.
  - rewrite H2. rewrite <- zval_shift by (unfold bias in *; lia). f_equal. lia.
Qed.

Lemma binary_round_valid s : valid (binary_round prec emax s m e).
Proof.
  rewrite binary_round_eq. destruct aligned_facts as (H1 & H2 & H3).
  apply round_valid; assumption.
Qed.

Lemma binary_round_upper Y E :
  representable Y E -> zval (Zpos m) e <= zval Y E ->
  is_finite (binary_round prec emax false m e) = true /\
  value (binary_round prec emax false m e) <= zval Y E.
Proof.
  intros R H. rewrite binary_round_eq. destruct aligned_facts as (H1 & H2 & H3).
  apply round_upper; try assumption. rewrite H3. exact H.
Qed.

Lemma binary_round_lower Y E :
  representable Y E -> zval Y E <= zval (Zpos m) e ->
  zval Y E <= value (binary_round prec emax false m e).
Proof.
  intros R H. rewrite binary_round_eq. destruct aligned_facts as (H1 & H2 & H3).
  apply round_lower; try assumption. rewrite H3. exact H.
Qed.
End BinaryRound.

(** the sum of two positive finite numbers rounds their exact sum *)
Lemma add_pos_eq mx ex my ey :
  - bias <= ex -> - bias <= ey ->
  exists S ez,
    add (S754_finite false mx ex) (S754_finite false my ey) =
      binary_round prec emax false S ez /\
    - bias <= ez /\
    zval (Zpos S) ez = zval (Zpos mx) ex + zval (Zpos my) ey.
Proof.
  intros Hx Hy. cbn [add SFadd cond_Zopp].
  pose proof (shl_align_spec mx ex (Z.min ex ey)) as [_ H1].
  pose proof (shl_align_spec my ey (Z.min ex ey)) as [_ H2].
  set (ax := fst (shl_align mx ex (Z.min ex ey))) in *.
  set (ay := fst (shl_align my ey (Z.min ex ey))) in *.
  exists (ax + ay)%positive, (Z.min ex ey).
  split; [reflexivity |]. split; [lia |].
  rewrite Pos2Z.inj_add, H1, H2.
  replace (Z.min ex (Z.min ex ey)) with (Z.min ex ey) by lia.
  replace (Z.min ey (Z.min ex ey)) with (Z.min ex ey) by lia.
  unfold zval. rewrite Z.mul_add_distr_r, <- !Z.mul_assoc, <- !Z.pow_add_r by (unfold bias in *; lia).
  f_equal; f_equal; f_equal; lia.
Qed.

Section Add.
Variables (x y : spec_float).
Hypotheses (Vx : valid x) (Vy : valid y).
Hypotheses (Px : pos_finite x) (Py : pos_finite y).

Lemma add_valid : valid (add x y).
Proof.
  destruct Px as (mx & ex & ->), Py as (my & ey & ->).
  pose proof (valid_finite_inv _ _ _ Vx) as (Hex & _).
  pose proof (valid_finite_inv _ _ _ Vy) as (Hey & _).
  unfold emin in *.
  destruct (add_pos_eq mx ex my ey) as (S & ez & -> & Hez & _);
    try (unfold bias; lia).
  apply binary_round_valid. exact Hez.
Qed.

Lemma add_upper Y E :
  representable Y E -> value x + value y <= zval Y E ->
  is_finite (add x y) = true /\ value (add x y) <= zval Y E.
Proof.
  destruct Px as (mx & ex & ->), Py as (my & ey & ->).
  pose proof (valid_finite_inv _ _ _ Vx) as (Hex & _).
  pose proof (valid_finite_inv _ _ _ Vy) as (Hey & _).
  unfold emin in *. intros R H.
  destruct (add_pos_eq mx ex my ey) as (S & ez & -> & Hez & HS);
    try (unfold bias; lia).
  apply binary_round_upper; [exact Hez | exact R |]. rewrite HS. exact H.
Qed.

Lemma add_lower Y E :
  representable Y E -> zval Y E <= value x + value y ->
  zval Y E <= value (add x y).
Proof.
  destruct Px as (mx & ex & ->), Py as (my & ey & ->).
  pose proof (valid_finite_inv _ _ _ Vx) as (Hex & _).
  pose proof (valid_finite_inv _ _ _ Vy) as (Hey & _).
  unfold emin in *. intros R H.
  destruct (add_pos_eq mx ex my ey) as (S & ez & -> & Hez & HS);
    try (unfold bias; lia).
  apply binary_round_lower; [exact Hez | exact R |]. rewrite HS. exact H.
Qed.
End Add.

Lemma round_shift_exact a n : 0 <= n -> round_shift (a * 2 ^ n) n = a.
Proof.
  intros Hn. unfold round_shift. pose proof (pow2_pos n Hn).
  rewrite Z.mod_mul, Z.div_mul by lia.
  replace (2 * 0 ?= 2 ^ n) with Lt by (symmetry; apply Z.compare_lt_iff; lia).
  reflexivity.
Qed.

(** multiplying by 1.0 changes nothing *)
Lemma mul_one v : valid v -> (v * 1.0)%js = v.
Proof.
  intros V. destruct v as [s|s| |s m e]; try (destruct s; reflexivity); try reflexivity.
  cbn [mul SFmul]. rewrite xorb_false_r.
  pose proof (valid_finite_inv _ _ _ V) as (He & Hd & Hn & Hm & Hm').
  assert (Hdig : Zpos (digits2_pos (m * 4503599627370496)) = Zpos (digits2_pos m) + 52).
  { apply (digits_shift m 52); [lia |]. rewrite Pos2Z.inj_mul. reflexivity. }
  assert (Hc : fexp prec emax (Zpos (digits2_pos (m * 4503599627370496)) + (e + -52)) = e).
  { rewrite Hdig, fexp_eq. unfold emin in *. lia. }
  rewrite bra_exact; [| lia | cbn [Zdigits2]; rewrite Hc; lia].
  cbn [Zdigits2]. rewrite Hc.
  replace (e - (e + -52)) with 52 by lia.
  rewrite Pos2Z.inj_mul. change (Zpos 4503599627370496) with (2 ^ 52).
  rewrite round_shift_exact by lia.
  unfold pack. destruct (Z.eqb_spec (Zpos m) (2 ^ 53)) as [E|E]; [lia |].
  destruct (Z.leb_spec e 971); [reflexivity | lia].
Qed.

Lemma pack_shape q c :
  0 <= q ->
  pack false q c = S754_zero false \/ pack false q c = S754_infinity false \/
  pos_finite (pack false q c).
Proof.
  intros Hq. unfold pack. destruct (q =? 2 ^ 53).
  - change (2 ^ 52) with 4503599627370496.
    destruct (c + 1 <=? 971); [right; right; eexists _, _; reflexivity | auto].
  - destruct q as [|p|p]; [auto | | lia].
    destruct (c <=? 971); [right; right; eexists _, _; reflexivity | auto].
Qed.

(** the product of two positive valid numbers is +0, positive and finite,
    or +Infinity *)
Lemma mul_pos_shape x y :
  valid x -> valid y -> ltb zero x = true -> ltb zero y = true ->
  mul x y = S754_zero false \/ mul x y = S754_infinity false \/ pos_finite (mul x y).
Proof.
  intros Vx Vy Px Py.
  destruct x as [sx|[|]| |[|] mx ex]; try discriminate;
  destruct y as [sy|[|]| |[|] my ey]; try discriminate; cbn [mul SFmul xorb]; auto.
  pose proof (valid_finite_inv _ _ _ Vx) as (Hex & _).
  pose proof (valid_finite_inv _ _ _ Vy) as (Hey & _).
  rewrite bra_exact; [| lia | exact (mul_shift _ _ _ _ _ _ Vx Vy)].
  apply pack_shape. apply round_shift_nonneg; [| lia].
  pose proof (mul_shift _ _ _ _ _ _ Vx Vy). cbn [Zdigits2]. lia.
Qed.

(** multiplying a number that is not negative by a factor in (0, 1] does
    not increase it *)
Lemma mul_factor_le y f :
  valid y -> valid f ->
  y = S754_zero false \/ y = S754_infinity false \/ pos_finite y ->
  ltb zero f = true -> leb f 1%js = true ->
  leb (y * f)%js y = true.
Proof.
  intros Vy Vf Hy Pf Lf.
  assert (Hf : pos_finite f).
  { destruct f as [s|[|]| |[|] m e]; try discriminate. eexists _, _; reflexivity. }
  assert (Hf1 : value f <= 2 ^ bias).
  { apply (leb_value_inv f 1%js Vf) in Lf; [exact Lf | reflexivity]. }
  destruct Hy as [-> | [-> | Py]].
  - destruct Hf as (m & e & ->). reflexivity.
  - destruct Hf as (m & e & ->). reflexivity.
  - destruct (Py) as (my & ey & Ey).
    pose proof (valid_finite_inv _ _ _ ltac:(rewrite <- Ey; exact Vy)) as (He & _ & _ & Hm & _).
    destruct (mul_upper y f Vy Vf Py Hf (Zpos my) ey) as [F Hv].
    + split; lia.
    + rewrite Ey at 1. cbn [value cond_Zopp].
      pose proof (zval_pos (Zpos my) ey ltac:(lia) ltac:(unfold emin, bias in *; lia)).
      pose proof (pos_finite_value f Hf Vf). nia.
    + apply leb_value.
      * apply mul_valid; assumption.
      * exact Vy.
      * destruct (y * f)%js; try discriminate; reflexivity.
      * rewrite Ey. reflexivity.
      * rewrite Ey at 2. exact Hv.
Qed.

(** the bands of the two tables *)
Lemma engine_band_facts e :
  In e engineSizeOptions ->
  valid (multiplier e) /\ ltb zero (multiplier e) = true /\
  leb 1%js (multiplier e) = true /\ leb (multiplier e) 1.6%js = true.
Proof.
  unfold engineSizeOptions. cbn [In].
  intros H. repeat (destruct H as [<- | H]; [repeat split |]). destruct H.
Qed.

Lemma age_band_facts a :
  In a ageOptions ->
  valid (depreciationFactor a) /\ ltb zero (depreciationFactor a) = true /\
  leb (depreciationFactor a) 1%js = true.
Proof.
  unfold ageOptions. cbn [In].
  intros H. repeat (destruct H as [<- | H]; [repeat split |]). destruct H.
Qed.

Lemma Zdigits2_nonneg_bounds m :
  0 < m -> 2 ^ (Zdigits2 m - 1) <= m < 2 ^ Zdigits2 m.
Proof. destruct m as [|p|p]; try lia. intros _. apply digits_bounds. Qed.

Lemma round_nearest_even_cases m l :
  round_nearest_even m l = m \/ round_nearest_even m l = m + 1.
Proof.
  destruct l as [|[| |]]; cbn; auto. destruct (Z.even m); auto.
Qed.

Lemma shr_any_m m l e n :
  0 <= m -> 0 <= n ->
  shr_m (fst (shr (shr_record_of_loc m l) e n)) = m / 2 ^ n /\
  snd (shr (shr_record_of_loc m l) e n) = e + n.
Proof.
  intros Hm Hn. destruct n as [|p|p]; [| | lia].
  - cbn [shr fst snd]. rewrite Z.div_1_r. split; [| lia].
    destruct l as [|[| |]]; reflexivity.
  - cbn [shr fst snd]. split; [| reflexivity].
    rewrite iter_pos_nat, <- (positive_nat_Z p).
    destruct l as [|[| |]]; cbn [shr_record_of_loc]; apply shr_iter_m; exact Hm.
Qed.

(** whatever the location of the exact value, binary_round_aux returns a
    number of the format *)
Lemma bra_valid s m e l :
  0 <= m -> e <= fexp prec emax (Zdigits2 m + e) ->
  valid (binary_round_aux prec emax s m e l).
Proof.
  intros Hm He. unfold binary_round_aux.
  set (c := fexp prec emax (Zdigits2 m + e)) in *.
  unfold shr_fexp at 1. fold c.
  pose proof (shr_any_m m l e (c - e) Hm ltac:(lia)) as [H1 H1'].
  destruct (shr (shr_record_of_loc m l) e (c - e)) as [mrs e'].
  cbn [fst snd] in H1, H1'.
  set (q := round_nearest_even (shr_m mrs) (loc_of_shr_record mrs)).
  assert (Hc : emin <= c) by (subst c; rewrite fexp_eq; lia).
  assert (Hq : 0 <= q <= 2 ^ 53 /\ (emin < c -> 2 ^ 52 <= q)).
  { pose proof (pow2_pos (c - e) ltac:(lia)) as HP.
    assert (Hq' : q = m / 2 ^ (c - e) \/ q = m / 2 ^ (c - e) + 1)
      by (rewrite <- H1; apply round_nearest_even_cases).
    assert (0 <= m / 2 ^ (c - e)) by (apply Z.div_pos; lia).
    destruct (Z.eq_dec m 0) as [->|Hm0].
    - rewrite Z.div_0_l in Hq' by lia.
      split; [lia |]. intros Hn. exfalso.
      subst c. rewrite fexp_eq in *. cbn [Zdigits2] in *. lia.
    - pose proof (Zdigits2_nonneg_bounds m ltac:(lia)) as [Hl Hu].
      assert (Hd : 0 < Zdigits2 m) by (destruct m; cbn; lia).
      assert (Hc' : Zdigits2 m + e - 53 <= c) by (subst c; rewrite fexp_eq; lia).
      split.
      + split; [lia |].
        assert (m / 2 ^ (c - e) < 2 ^ 53); [| lia].
        apply Z.div_lt_upper_bound; [lia |].
        rewrite <- Z.pow_add_r by lia.
        assert (2 ^ Zdigits2 m <= 2 ^ (c - e + 53)) by (apply Z.pow_le_mono_r; lia).
        lia.
      + intros Hn. assert (Hc'' : c = Zdigits2 m + e - 53)
          by (subst c; rewrite fexp_eq in *; lia).
        assert (2 ^ 52 <= m / 2 ^ (c - e)); [| lia].
        apply Z.div_le_lower_bound; [lia |].
        rewrite <- Z.pow_add_r by lia.
        replace (c - e + 52) with (Zdigits2 m - 1) by lia. exact Hl. }
  destruct Hq as [Hq1 Hq2].
  pose proof (shr_fexp_norm q c Hq1 Hc) as H2.
  replace e' with c by lia.
  destruct (shr_fexp prec emax q c loc_Exact) as [mrs2 e2].
  assert (E : match shr_m mrs2 with
              | 0 => S754_zero s
              | Z.pos m0 =>
                  if e2 <=? emax - prec then S754_finite s m0 e2 else S754_infinity s
              | Z.neg _ => S754_nan
              end = pack s q c).
  { unfold pack. destruct (q =? 2 ^ 53); injection H2 as -> ->; reflexivity. }
  rewrite E. apply pack_valid; assumption.
Qed.

Lemma fexp_mono a b : a <= b -> fexp prec emax a <= fexp prec emax b.
Proof. intros H. rewrite !fexp_eq. lia. Qed.

(** quotients of positive integers *)
Lemma div_valid s m1 m2 :
  valid (SFdiv prec emax (S754_finite s m1 0) (S754_finite false m2 0)).
Proof.
  cbn [SFdiv]. unfold SFdiv_core_binary.
  set (d1 := Zdigits2 (Zpos m1)). set (d2 := Zdigits2 (Zpos m2)).
  rewrite !Z.add_0_r, Z.sub_0_r.
  set (e' := Z.min (fexp prec emax (d1 - d2)) 0).
  set (m' := match 0 - e' with Zpos _ => Z.shiftl (Zpos m1) (0 - e') | 0 => Zpos m1 | Zneg _ => 0 end).
  assert (He' : e' <= 0) by (subst e'; lia).
  assert (Hm' : m' = Zpos m1 * 2 ^ (- e')).
  { subst m'. replace (0 - e') with (- e') by lia.
    destruct (- e') as [|p|p] eqn:E; [ | | lia].
    - rewrite Z.pow_0_r. lia.
    - rewrite Z.shiftl_mul_pow2 by lia. reflexivity. }
  pose proof (Z_div_mod m' (Zpos m2) ltac:(lia)) as Hdiv.
  destruct (Z.div_eucl m' (Zpos m2)) as [q r]. destruct Hdiv as [Hdiv Hr].
  pose proof (pow2_pos (- e') ltac:(lia)) as HP.
  assert (Hq : 0 <= q) by nia.
  apply bra_valid; [exact Hq |].
  pose proof (digits_bounds m1) as [Hl1 Hu1].
  change (Zpos (digits2_pos m1)) with d1 in Hl1, Hu1.
  pose proof (digits_bounds m2) as [Hl2 Hu2].
  change (Zpos (digits2_pos m2)) with d2 in Hl2, Hu2.
  assert (Hd1 : 0 < d1) by (subst d1; cbn; lia).
  assert (Hd2 : 0 < d2) by (subst d2; cbn; lia).
  destruct (Z.eq_dec q 0) as [->|Hq0].
  - cbn [Zdigits2]. rewrite Z.add_0_l.
    (* the quotient vanishes only at the smallest exponent *)
    assert (Hlt : 2 ^ (d1 - 1 + - e') < 2 ^ d2).
    { rewrite Z.pow_add_r by lia. nia. }
    apply Z.pow_lt_mono_r_iff in Hlt; [| lia | lia].
    subst e'. rewrite !fexp_eq in *. unfold emin in *. lia.
  - assert (Hdq : d1 - d2 <= Zdigits2 q + e').
    { pose proof (Zdigits2_nonneg_bounds q ltac:(lia)) as [Hlq Huq].
      assert (0 < Zdigits2 q) by (destruct q; cbn; lia).
      destruct (Z_lt_le_dec (d1 - 1 + - e') d2) as [Hs|Hs]; [lia |].
      assert (Hge : 2 ^ (d1 - 1 + - e' - d2) <= q).
      { assert (2 ^ (d1 - 1 + - e' - d2) * 2 ^ d2 <= m').
        { rewrite <- Z.pow_add_r by lia. rewrite Hm'.
          replace (d1 - 1 + - e' - d2 + d2) with (d1 - 1 + - e') by lia.
          rewrite Z.pow_add_r by lia. nia. }
        pose proof (pow2_pos (d1 - 1 + - e' - d2) ltac:(lia)).
        nia. }
      assert (Hlt : 2 ^ (d1 - 1 + - e' - d2) < 2 ^ Zdigits2 q) by lia.
      apply Z.pow_lt_mono_r_iff in Hlt; lia. }
    apply Z.le_trans with (fexp prec emax (d1 - d2)); [subst e'; lia |].
    apply fexp_mono. exact Hdq.
Qed.

Lemma of_decimal_valid neg m e : valid (of_decimal neg m e).
Proof.
  unfold of_decimal. destruct m as [|p]; [reflexivity |].
  destruct e as [|k|k].
  - apply binary_round_valid. unfold bias; lia.
  - apply binary_round_valid. unfold bias; lia.
  - apply div_valid.
Qed.

Lemma StrUnsignedDecimalLiteral_valid neg s :
  valid (StrUnsignedDecimalLiteral neg s).
Proof.
  unfold StrUnsignedDecimalLiteral.
  destruct (String.prefix "Infinity" s); [reflexivity |].
  destruct (DecimalDigits s 0 0) as [[ip ni] r1].
  assert (H : valid (match ni with
                     | O => NaN
                     | S _ => of_decimal neg ip (ExponentPart r1)
                     end)).
  { destruct ni; [reflexivity | apply of_decimal_valid]. }
  destruct r1 as [|c r2]; [exact H |].
  destruct (Ascii.ascii_dec c "."%char) as [->|Hc].
  - destruct (DecimalDigits r2 ip 0) as [[m nf] r3].
    destruct ni, nf; try reflexivity; apply of_decimal_valid.
  - destruct c as [[|] [|] [|] [|] [|] [|] [|] [|]]; try exact H. congruence.
Qed.

Theorem parseFloat_valid s : valid (parseFloat s).
Proof.
  unfold parseFloat.
  destruct (TrimStart s) as [|c r].
  - reflexivity.
  - destruct c as [[|] [|] [|] [|] [|] [|] [|] [|]];
      apply StrUnsignedDecimalLiteral_valid.
Qed.

(** ** The cascading VAT base *)

Lemma zval_plus k m e : 0 <= k -> - bias <= e -> zval m (e + k) = 2 ^ k * zval m e.
Proof.
  intros Hk He. unfold zval. replace (e + k + bias) with (k + (e + bias)) by lia.
  rewrite Z.pow_add_r by lia. ring.
Qed.

Lemma finite_not_nan x : is_finite x = true -> is_nan x = false.
Proof. destruct x; try discriminate; reflexivity. Qed.

(** a number between 1e-300 and 1e300 is positive, finite and normal *)
Lemma adjusted_in_range x :
  valid x -> leb 1e-300%js x = true -> leb x 1e300%js = true ->
  exists mx ex,
  x = S754_finite false mx ex /\ -1049 <= ex <= 944 /\ 2 ^ 52 <= Zpos mx < 2 ^ 53.
Proof.
  intros Vx Hlo Hhi.
  assert (Vlo : valid 1e-300%js) by reflexivity.
  assert (Vhi : valid 1e300%js) by reflexivity.
  pose proof (leb_value_inv _ _ Vlo Vx Hlo) as Hl.
  pose proof (leb_value_inv _ _ Vx Vhi Hhi) as Hh.
  cbn [value cond_Zopp] in Hl, Hh.
  assert (Hlo' : zval (2 ^ 52) (-1049) <= value x).
  { eapply Z.le_trans; [| exact Hl]. apply zval_le_mono; [unfold bias|]; lia. }
  assert (Hhi' : value x < zval (2 ^ 53) 944).
  { eapply Z.le_lt_trans; [exact Hh |]. unfold zval.
    pose proof (pow2_pos (944 + bias) ltac:(unfold bias; lia)). nia. }
  assert (0 < zval (2 ^ 52) (-1049)) by (apply zval_pos; [|unfold bias]; lia).
  assert (0 < zval 1 1024) by (apply zval_pos; [|unfold bias]; lia).
  destruct x as [s|s| |s mx ex] eqn:Ex; cbn [value cond_Zopp] in *; try lia.
  - exfalso. destruct s; cbn [cond_Zopp] in *; [lia |].
    unfold zval in Hhi'. rewrite Z.mul_1_l in Hhi'.
    change (2 ^ 53) with (2 ^ 53 * 1) in Hhi'.
    assert (2 ^ 53 * 2 ^ (944 + bias) <= 2 ^ (1024 + bias)).
    { rewrite <- Z.pow_add_r by (unfold bias; lia).
      apply Z.pow_le_mono_r; unfold bias; lia. }
    lia.
  - pose proof (valid_finite_inv _ _ _ Vx) as (He & _ & _ & Hm & Hn).
    pose proof (value_finite_bound _ _ _ Vx).
    destruct s; cbn [cond_Zopp] in *; [lia |].
    exists mx, ex. split; [reflexivity |]. unfold emin in *.
    assert (Hex : -1049 <= ex <= 944).
    { split.
      - destruct (Z_le_gt_dec (-1049) ex) as [?|Hgt]; [assumption | exfalso].
        assert (zval (Zpos mx) ex < zval (2 ^ 52) (-1049)); [| lia].
        replace (-1049) with (ex + (-1049 - ex)) by lia.
        rewrite zval_plus by (unfold bias; lia).
        assert (2 ^ 1 <= 2 ^ (-1049 - ex)) by (apply Z.pow_le_mono_r; lia).
        unfold zval. pose proof (pow2_pos (ex + bias) ltac:(unfold bias; lia)).
        change (2 ^ 1) with 2 in *. nia.
      - destruct (Z_le_gt_dec ex 944) as [?|Hgt]; [assumption | exfalso].
        assert (zval (2 ^ 53) 944 <= zval (Zpos mx) ex); [| lia].
        replace ex with (944 + (ex - 944)) by lia.
        rewrite zval_plus by (unfold bias; lia).
        assert (2 ^ 1 <= 2 ^ (ex - 944)) by (apply Z.pow_le_mono_r; lia).
        assert (2 ^ 52 <= Zpos mx) by (apply Hn; lia).
        unfold zval. pose proof (pow2_pos (944 + bias) ltac:(unfold bias; lia)).
        change (2 ^ 1) with 2 in *.
        assert (2 ^ 53 <= 2 ^ (ex - 944) * Zpos mx) by nia.
        rewrite Z.mul_assoc. apply Z.mul_le_mono_nonneg_r; lia. }
    split; [exact Hex |]. split; [apply Hn; lia | lia].
Qed.

(** with the rates 25%, 25% and 16%, the VAT on the duty-inclusive base is
    above the VAT on the adjusted value alone *)
Lemma cascading_vat_above mx ex :
  valid (S754_finite false mx ex) ->
  -1049 <= ex <= 944 -> 2 ^ 52 <= Zpos mx < 2 ^ 53 ->
  let x := S754_finite false mx ex in
  ltb (x * 0.16)%js ((x + x * 0.25 + x * 0.25) * 0.16)%js = true.
Proof.
  intros Vx Hex Hmx x.
  set (X := zval (Zpos mx) (ex - 2)).
  assert (HX : 0 < X) by (apply zval_pos; [| unfold bias]; lia).
  assert (EX : value x = 4 * X).
  { cbn [x value cond_Zopp]. replace ex with (ex - 2 + 2) at 1 by lia.
    rewrite zval_plus by (unfold bias; lia). reflexivity. }
  assert (Px : pos_finite x) by (eexists _, _; reflexivity).
  assert (V25 : valid 0.25%js) by reflexivity.
  assert (P25 : pos_finite 0.25%js) by (eexists _, _; reflexivity).
  assert (V16 : valid 0.16%js) by reflexivity.
  assert (P16 : pos_finite 0.16%js) by (eexists _, _; reflexivity).
  assert (HB : 0 < 2 ^ (bias - 55)) by (apply pow2_pos; unfold bias; lia).
  assert (E25 : value 0.25%js = 2 ^ 53 * 2 ^ (bias - 55)).
  { cbn [value cond_Zopp]. unfold zval. rewrite <- !Z.pow_add_r by (unfold bias; lia).
    reflexivity. }
  assert (E16 : value 0.16%js = 5764607523034235 * 2 ^ (bias - 55)).
  { cbn [value cond_Zopp]. unfold zval. f_equal. }
  assert (EB : 2 ^ bias = 2 ^ 55 * 2 ^ (bias - 55)).
  { rewrite <- Z.pow_add_r by (unfold bias; lia). f_equal. }
  (* the duty is a quarter of the adjusted value, exactly *)
  set (duty := (x * 0.25)%js).
  assert (Rq : representable (Zpos mx) (ex - 2)) by (unfold representable, emin; lia).
  destruct (mul_upper x 0.25%js Vx V25 Px P25 _ _ Rq) as [Fd Ud];
    [fold X; rewrite EX, E25, EB; nia |].
  pose proof (mul_lower x 0.25%js Vx V25 Px P25 _ _ Rq
                ltac:(fold X; rewrite EX, E25, EB; nia)) as Ld.
  fold duty in Fd, Ud, Ld. fold X in Ud, Ld.
  assert (Vd : valid duty) by (apply mul_valid; assumption).
  assert (Pd : pos_finite duty) by (apply pos_finite_intro; [exact Fd | lia]).
  (* adding it once *)
  set (base1 := (x + duty)%js).
  assert (R2 : representable (Zpos mx) (ex + 1)) by (unfold representable, emin; lia).
  assert (E2 : zval (Zpos mx) (ex + 1) = 8 * X).
  { unfold X. replace (ex + 1) with (ex - 2 + 3) by lia.
    rewrite zval_plus by (unfold bias; lia). reflexivity. }
  destruct (add_upper x duty Vx Vd Px Pd _ _ R2) as [F1 U1]; [lia |].
  assert (R1 : representable (Zpos mx) ex) by (unfold representable, emin; lia).
  pose proof (add_lower x duty Vx Vd Px Pd _ _ R1
                ltac:(change (zval (Zpos mx) ex) with (value x); lia)) as L1.
  change (zval (Zpos mx) ex) with (value x) in L1.
  fold base1 in F1, U1, L1.
  assert (V1 : valid base1) by (apply add_valid; assumption).
  assert (P1 : pos_finite base1) by (apply pos_finite_intro; [exact F1 | lia]).
  (* adding it twice *)
  set (base := (base1 + duty)%js).
  assert (R4 : representable (Zpos mx) (ex + 2)) by (unfold representable, emin; lia).
  assert (E4 : zval (Zpos mx) (ex + 2) = 16 * X).
  { unfold X. replace (ex + 2) with (ex - 2 + 4) by lia.
    rewrite zval_plus by (unfold bias; lia). reflexivity. }
  destruct (add_upper base1 duty V1 Vd P1 Pd _ _ R4) as [F2 U2]; [lia |].
  set (W := 5 * Zpos mx / 8).
  assert (HW : 8 * W <= 5 * Zpos mx < 8 * W + 8).
  { unfold W. pose proof (Z.div_mod (5 * Zpos mx) 8 ltac:(lia)).
    pose proof (Z.mod_pos_bound (5 * Zpos mx) 8 ltac:(lia)). lia. }
  assert (RW : representable W (ex + 1)) by (unfold representable, emin; lia).
  assert (EW : 8 * zval W (ex - 2) = zval W (ex + 1)).
  { replace (ex + 1) with (ex - 2 + 3) by lia.
    rewrite zval_plus by (unfold bias; lia). reflexivity. }
  assert (HWX : zval W (ex + 1) <= 5 * X).
  { rewrite <- EW. unfold X, zval.
    pose proof (pow2_pos (ex - 2 + bias) ltac:(unfold bias; lia)). nia. }
  pose proof (add_lower base1 duty V1 Vd P1 Pd _ _ RW ltac:(lia)) as L2.
  fold base in F2, U2, L2.
  assert (V2 : valid base) by (apply add_valid; assumption).
  assert (P2 : pos_finite base).
  { apply pos_finite_intro; [exact F2 |].
    assert (0 < zval W (ex + 1)) by (apply zval_pos; [| unfold bias]; lia). lia. }
  (* the VAT on the duty-inclusive base, from below *)
  set (mc := 5764607523034235) in *.
  set (Y2 := W * mc / 2 ^ 53).
  assert (HY2 : Y2 * 2 ^ 53 <= W * mc < Y2 * 2 ^ 53 + 2 ^ 53).
  { unfold Y2. pose proof (Z.div_mod (W * mc) (2 ^ 53) ltac:(lia)).
    pose proof (Z.mod_pos_bound (W * mc) (2 ^ 53) ltac:(lia)). lia. }
  assert (RY2 : representable Y2 (ex - 1)).
  { unfold representable, emin. subst mc. lia. }
  assert (EY2 : zval Y2 (ex - 1) = 2 * zval Y2 (ex - 2)).
  { replace (ex - 1) with (ex - 2 + 1) by lia.
    rewrite zval_plus by (unfold bias; lia). reflexivity. }
  pose proof (mul_lower base 0.16%js V2 V16 P2 P16 _ _ RY2) as Lv.
  assert (Lv' : zval Y2 (ex - 1) <= value (base * 0.16)%js).
  { apply Lv. rewrite E16, EB, EY2.
    apply Z.le_trans with (zval W (ex + 1) * (mc * 2 ^ (bias - 55))).
    - rewrite <- EW. unfold zval.
      pose proof (pow2_pos (ex - 2 + bias) ltac:(unfold bias; lia)).
      assert (2 * Y2 * 2 ^ 55 <= 8 * W * mc) by lia.
      set (P := 2 ^ (ex - 2 + bias)) in *. set (Q := 2 ^ (bias - 55)) in *.
      replace (2 * (Y2 * P) * (2 ^ 55 * Q)) with ((2 * Y2 * 2 ^ 55) * (P * Q)) by ring.
      replace (8 * (W * P) * (mc * Q)) with ((8 * W * mc) * (P * Q)) by ring.
      apply Z.mul_le_mono_nonneg_r; nia.
    - apply Z.mul_le_mono_nonneg_r; [subst mc; nia | exact L2]. }
  destruct (mul_upper base 0.16%js V2 V16 P2 P16 _ _ R1) as [Fv _].
  { rewrite E16, EB. change (zval (Zpos mx) ex) with (value x). rewrite EX.
    apply Z.le_trans with (16 * X * (mc * 2 ^ (bias - 55))).
    - apply Z.mul_le_mono_nonneg_r; [subst mc; nia | lia].
    - subst mc. nia. }
  (* the VAT on the adjusted value alone, from above *)
  set (Y1 := Zpos mx * mc / 2 ^ 53 + 1).
  assert (HY1 : Zpos mx * mc < Y1 * 2 ^ 53 <= Zpos mx * mc + 2 ^ 53).
  { unfold Y1. pose proof (Z.div_mod (Zpos mx * mc) (2 ^ 53) ltac:(lia)).
    pose proof (Z.mod_pos_bound (Zpos mx * mc) (2 ^ 53) ltac:(lia)). lia. }
  assert (RY1 : representable Y1 (ex - 2)).
  { unfold representable, emin. subst mc. lia. }
  destruct (mul_upper x 0.16%js Vx V16 Px P16 _ _ RY1) as [Fn Un].
  { rewrite EX, E16, EB. unfold X, zval.
    pose proof (pow2_pos (ex - 2 + bias) ltac:(unfold bias; lia)).
    set (P := 2 ^ (ex - 2 + bias)) in *. set (Q := 2 ^ (bias - 55)) in *.
    replace (4 * (Zpos mx * P) * (mc * Q)) with ((4 * (Zpos mx * mc)) * (P * Q)) by ring.
    replace (Y1 * P * (2 ^ 55 * Q)) with ((Y1 * 2 ^ 55) * (P * Q)) by ring.
    apply Z.mul_le_mono_nonneg_r; nia. }
  (* the two bounds are apart *)
  assert (Hgap : zval Y1 (ex - 2) < zval Y2 (ex - 1)).
  { rewrite EY2. unfold zval.
    pose proof (pow2_pos (ex - 2 + bias) ltac:(unfold bias; lia)).
    assert (Y1 < 2 * Y2) by (subst mc; lia). nia. }
  apply ltb_value.
  - apply mul_valid; assumption.
  - apply mul_valid; assumption.
  - apply finite_not_nan. exact Fn.
  - apply finite_not_nan. exact Fv.
  - exact (Z.le_lt_trans _ _ _ Un (Z.lt_le_trans _ _ _ Hgap Lv')).
Qed.

Local Open Scope js_scope.

(** * Properties *)

(** ** What [calculateCosts] returns *)

Lemma selectEngine_In s e :
  selectEngine s = Some e -> In e engineSizeOptions /\ engine_value e = s.
Proof.
  unfold selectEngine. intros H. apply find_some in H as [Hin Heq].
  split; [exact Hin | now apply String.eqb_eq].
Qed.

Lemma selectAge_In s a :
  selectAge s = Some a -> In a ageOptions /\ age_value a = s.
Proof.
  unfold selectAge. intros H. apply find_some in H as [Hin Heq].
  split; [exact Hin | now apply String.eqb_eq].
Qed.

Lemma selectEngine_truthy s e :
  selectEngine s = Some e -> truthy_string s = true.
Proof.
  intros H. apply selectEngine_In in H as [Hin <-].
  simpl in Hin. intuition (subst; reflexivity).
Qed.

Lemma selectAge_truthy s a :
  selectAge s = Some a -> truthy_string s = true.
Proof.
  intros H. apply selectAge_In in H as [Hin <-].
  simpl in Hin. intuition (subst; reflexivity).
Qed.

(** With a truthy declared value and two known bands, a breakdown is
    returned, and it is the one [costsOf] describes. *)
Lemma calculateCosts_ready st e a :
  truthy (parseFloat (carValue st)) = true ->
  selectEngine (engineSize st) = Some e ->
  selectAge (age st) = Some a ->
  calculateCosts st =
    Some (costsOf (parseFloat (carValue st)) e a (kraData st)
            (lookupShipping (shippingRates st) (origin st))).
Proof.
  intros Hv He Ha. unfold calculateCosts.
  fold (selectEngine (engineSize st)). fold (selectAge (age st)).
  rewrite Hv, (selectEngine_truthy _ _ He), (selectAge_truthy _ _ Ha), He, Ha.
  reflexivity.
Qed.

(** Conversely every breakdown comes from a truthy value and two bands. *)
Lemma calculateCosts_inv st b :
  calculateCosts st = Some b ->
  exists e a,
    truthy (parseFloat (carValue st)) = true /\
    selectEngine (engineSize st) = Some e /\
    selectAge (age st) = Some a /\
    b = costsOf (parseFloat (carValue st)) e a (kraData st)
          (lookupShipping (shippingRates st) (origin st)).
Proof.
  unfold calculateCosts.
  fold (selectEngine (engineSize st)). fold (selectAge (age st)).
  destruct (truthy (parseFloat (carValue st))) eqn:Hv; [| discriminate].
  destruct (truthy_string (engineSize st)); [| discriminate].
  destruct (truthy_string (age st)); [| discriminate].
  cbn [negb orb].
  destruct (selectEngine (engineSize st)) as [e|]; [| discriminate].
  destruct (selectAge (age st)) as [a|]; [| discriminate].
  intros [= <-]. exists e, a. repeat split.
Qed.

(** Evaluates [calculateCosts] on a closed state and offers the breakdown
    it returns as the witness of an existential goal. *)
Ltac exists_breakdown st :=
  let r := eval vm_compute in (calculateCosts st) in
  lazymatch r with
  | Some ?b => exists b
  end.

Ltac by_evaluation := vm_compute; first [reflexivity | discriminate].

(** A number above zero is truthy. *)
Lemma positive_truthy v : ltb zero v = true -> truthy v = true.
Proof. destruct v as [s|s| |s m e]; simpl; try reflexivity; discriminate. Qed.

Lemma negative_truthy v : ltb v zero = true -> truthy v = true.
Proof. destruct v as [s|s| |s m e]; simpl; try reflexivity; discriminate. Qed.

(** ** The shipping-rate lookup *)

(** An own rate is used when truthy and replaced by 150,000 otherwise. *)
Lemma lookupShipping_own (rates : ShippingRates) key rate :
  rates !! key = Some rate ->
  lookupShipping rates key = Num (if truthy rate then rate else 150000).
Proof.
  intros H. unfold lookupShipping, Get, or_else. rewrite H.
  cbn [truthy_value]. destruct (truthy rate); reflexivity.
Qed.

(** A key that names no property at all reads [undefined]. *)
Lemma lookupShipping_missing (rates : ShippingRates) key :
  rates !! key = None -> isInherited key = false ->
  lookupShipping rates key = Num 150000.
Proof.
  intros H I. unfold lookupShipping, Get, or_else. rewrite H, I. reflexivity.
Qed.

(** A key that names a member of [Object.prototype] reads that member,
    which is truthy. *)
Lemma lookupShipping_inherited (rates : ShippingRates) key :
  rates !! key = None -> isInherited key = true ->
  lookupShipping rates key = Inherited key.
Proof.
  intros H I. unfold lookupShipping, Get, or_else. rewrite H, I. reflexivity.
Qed.

(** ** The example scenario *)

(** C6: on the scenario of the specification (declared value 2,500,000,
    band 1501-2000cc with multiplier 1.2, band 1-2 years with factor 0.95,
    origin japan at 150,000, rates 25%, 25% and 16%, service fee 3%, fixed
    fees 85,000 + 15,000 + 25,000 + 5,000 + 3,000 + 12,000) the function
    returns adjustedValue 2,850,000, importDuty 712,500, exciseDuty 712,500,
    vat 684,000, serviceFee 85,500 and total 5,339,500: the binary64
    roundings of the products and sums land exactly on these integers. *)
Theorem example_scenario :
  selectEngine "2000" =
    Some {| engine_value := "2000"; engine_label := "1501-2000cc";
            multiplier := 1.2 |} /\
  selectAge "2" =
    Some {| age_value := "2"; age_label := "1-2 years";
            depreciationFactor := 0.95 |} /\
  shippingRates exampleState !! "japan" = Some 150000 /\
  calculateCosts exampleState = Some exampleCosts.
Proof. repeat split; vm_compute; reflexivity. Qed.

(** ** The total *)



(** ** Not ready *)

(** C4: when the engine-band selector or the age-band selector is absent
    (the empty string) or matches no band of its table, no breakdown is
    produced, whatever the other fields hold. *)
Theorem unknown_band_not_ready st :
  engineSize st = "" \/ selectEngine (engineSize st) = None \/
  age st = "" \/ selectAge (age st) = None ->
  calculateCosts st = None.
Proof.
  intros H. unfold calculateCosts.
  fold (selectEngine (engineSize st)). fold (selectAge (age st)).
  destruct H as [H | [H | [H | H]]]; rewrite H; cbn [truthy_string negb].
  - rewrite orb_true_r. reflexivity.
  - destruct (_ || _ || _); reflexivity.
  - rewrite orb_true_r. reflexivity.
  - destruct (_ || _ || _); [reflexivity |].
    destruct (selectEngine (engineSize st)); reflexivity.
Qed.

Lemma unknown_band_not_ready_witness :
  calculateCosts
    (stateOf "2500000" "2200" "2" "japan" (initialKRAData "")
       initialShippingRates) = None /\
  calculateCosts
    (stateOf "2500000" "2000" "" "japan" (initialKRAData "")
       initialShippingRates) = None.
Proof.
  split; apply unknown_band_not_ready.
  - right; left. vm_compute; reflexivity.
  - right; right; left. reflexivity.
Defined.

(** ** The adjusted value *)

(** C7: for a declared value above zero and two selectors naming bands of
    the tables, a breakdown is returned whose adjustedValue is the declared
    value times the multiplier of the engine band times the factor of the
    age band (the two binary64 products of the source, left to right). *)
Theorem adjusted_value_formula st e a :
  ltb zero (parseFloat (carValue st)) = true ->
  selectEngine (engineSize st) = Some e ->
  selectAge (age st) = Some a ->
  exists b,
    calculateCosts st = Some b /\
    originalValue b = parseFloat (carValue st) /\
    engineMultiplier b = multiplier e /\
    depreciationFactor_ b = depreciationFactor a /\
    adjustedValue b =
      parseFloat (carValue st) * multiplier e * depreciationFactor a.
Proof.
  intros Hv He Ha. eexists. split.
  - apply calculateCosts_ready; eauto using positive_truthy.
  - repeat split.
Qed.

Lemma adjusted_value_formula_witness :
  exists b,
    calculateCosts exampleState = Some b /\
    originalValue b = 2500000 /\
    engineMultiplier b = 1.2 /\
    depreciationFactor_ b = 0.95 /\
    adjustedValue b = 2500000 * 1.2 * 0.95.
Proof.
  apply (adjusted_value_formula exampleState
           {| engine_value := "2000"; engine_label := "1501-2000cc";
              multiplier := 1.2 |}
           {| age_value := "2"; age_label := "1-2 years";
              depreciationFactor := 0.95 |});
    vm_compute; reflexivity.
Defined.

(** ** The declared value *)

(** C3, as the code has it: when the declared value is missing (the empty
    string), non-numeric ([parseFloat] yields NaN) or equal to zero, the
    function returns [null] (it is total: nothing is thrown), whatever the
    other inputs are. *)
Theorem unusable_value_not_ready st :
  carValue st = "" \/ parseFloat (carValue st) = NaN \/
  eqb (parseFloat (carValue st)) zero = true ->
  calculateCosts st = None.
Proof.
  intros H. unfold calculateCosts.
  assert (Hf : truthy (parseFloat (carValue st)) = false).
  { destruct H as [H | [H | H]].
    - rewrite H. reflexivity.
    - rewrite H. reflexivity.
    - destruct (parseFloat (carValue st)) as [[|]|[|]| |[|] m e];
        try reflexivity; discriminate. }
  rewrite Hf. reflexivity.
Qed.

Lemma unusable_value_not_ready_witness :
  calculateCosts
    (stateOf "" "2000" "2" "japan" (initialKRAData "") initialShippingRates)
    = None /\
  calculateCosts
    (stateOf "abc" "2000" "2" "japan" (initialKRAData "") initialShippingRates)
    = None /\
  calculateCosts
    (stateOf "-0.0" "2000" "2" "japan" (initialKRAData "") initialShippingRates)
    = None.
Proof.
  split; [| split]; apply unusable_value_not_ready.
  - left. reflexivity.
  - right; left. vm_compute; reflexivity.
  - right; right. vm_compute; reflexivity.
Defined.

(** C3, as stated, fails: a declared value below zero passes the guard
    [!value] and a breakdown of negative amounts is returned. *)
Lemma negative_value_is_computed :
  leb (parseFloat (carValue negativeState)) zero = true /\
  exists b,
    calculateCosts negativeState = Some b /\
    adjustedValue b = SFopp 2850000 /\
    totalCost b = SFopp 4749500 /\
    ltb (SFopp 4749500) zero = true.
Proof.
  split; [by_evaluation |].
  exists_breakdown negativeState. repeat split; by_evaluation.
Qed.

(** ** Shipping *)

(** C5, as the code has it: with a declared value above zero and two
    known bands, an origin that names no property of the shipping-rate
    table, neither a key of its own nor a member it inherits from
    [Object.prototype], still yields a full breakdown, whose shippingCost
    is 150,000. *)
Theorem unknown_origin_fallback st e a :
  ltb zero (parseFloat (carValue st)) = true ->
  selectEngine (engineSize st) = Some e ->
  selectAge (age st) = Some a ->
  shippingRates st !! origin st = None ->
  isInherited (origin st) = false ->
  exists b,
    calculateCosts st = Some b /\
    shippingCost b = 150000 /\
    b = costsOf (parseFloat (carValue st)) e a (kraData st) 150000.
Proof.
  intros Hv He Ha Ho Hi. eexists. split.
  - apply calculateCosts_ready; eauto using positive_truthy.
  - rewrite (lookupShipping_missing _ _ Ho Hi). split; reflexivity.
Qed.

Lemma unknown_origin_fallback_witness :
  exists b,
    calculateCosts
      (stateOf "2500000" "2000" "2" "germany" (initialKRAData "")
         initialShippingRates) = Some b /\
    shippingCost b = 150000 /\
    totalCost b = 5339500.
Proof.
  destruct
    (unknown_origin_fallback
       (stateOf "2500000" "2000" "2" "germany" (initialKRAData "")
          initialShippingRates)
       {| engine_value := "2000"; engine_label := "1501-2000cc";
          multiplier := 1.2 |}
       {| age_value := "2"; age_label := "1-2 years";
          depreciationFactor := 0.95 |})
    as (b & Hb & Hs & Hc); try (vm_compute; reflexivity).
  exists b. repeat split; try assumption.
  rewrite Hc. vm_compute; reflexivity.
Defined.

(** C5, as stated, fails: "constructor" is no key of the rate table, yet
    the lookup finds the member of that name on [Object.prototype], which
    is truthy.  The shipping cost is that function, not 150,000, and the
    total is a string, the amounts written one after the other. *)
Lemma inherited_origin_is_not_replaced :
  ltb zero (parseFloat (carValue inheritedOriginState)) = true /\
  selectEngine (engineSize inheritedOriginState) <> None /\
  selectAge (age inheritedOriginState) <> None /\
  shippingRates inheritedOriginState !! origin inheritedOriginState = None /\
  exists b,
    calculateCosts inheritedOriginState = Some b /\
    shippingCost b = Inherited "constructor" /\
    shippingCost b <> 150000 /\
    totalCost b =
      (4959000 + Inherited "constructor" + 85000 + 15000 + 25000 + 5000 +
       3000 + 12000 + 85500)%value /\
    forall total : number, totalCost b <> total.
Proof.
  split; [by_evaluation |]. split; [by_evaluation |]. split; [by_evaluation |].
  split; [by_evaluation |].
  exists_breakdown inheritedOriginState.
  split; [by_evaluation |]. split; [reflexivity |]. split; [discriminate |].
  split; [by_evaluation |]. intros total. discriminate.
Qed.

(** The same holds of every origin that names an inherited member. *)
Lemma inherited_origin_shipping st b :
  calculateCosts st = Some b ->
  shippingRates st !! origin st = None ->
  isInherited (origin st) = true ->
  shippingCost b = Inherited (origin st) /\
  forall total : number, totalCost b <> total.
Proof.
  intros Hb Ho Hi. apply calculateCosts_inv in Hb as (e & a & _ & _ & _ & ->).
  rewrite (lookupShipping_inherited _ _ Ho Hi).
  split; [reflexivity |]. intros total. discriminate.
Qed.

(** C10, as the code has it: when the origin is a key of the table, the
    stored rate is used if it is truthy and 150,000 otherwise; the falsy
    rates are exactly the zeros and NaN (an infinite rate is truthy). *)
Theorem falsy_rate_fallback st b r :
  calculateCosts st = Some b ->
  shippingRates st !! origin st = Some r ->
  shippingCost b = (if truthy r then r else 150000) /\
  (truthy r = false <-> eqb r zero = true \/ r = NaN).
Proof.
  intros Hb Hr. apply calculateCosts_inv in Hb as (e & a & _ & _ & _ & ->).
  split.
  - cbn [shippingCost costsOf]. rewrite (lookupShipping_own _ _ _ Hr).
    destruct (truthy r); reflexivity.
  - destruct r as [[|]|[|]| |[|] m x]; cbn; split; intros H;
      try reflexivity; try discriminate; auto;
      destruct H as [H | H]; discriminate.
Qed.

Lemma falsy_rate_fallback_witness :
  shippingCost exampleCosts = 150000 /\
  (truthy 150000 = false <-> eqb 150000 zero = true \/ 150000 = NaN).
Proof.
  apply (falsy_rate_fallback exampleState exampleCosts 150000);
    vm_compute; reflexivity.
Defined.

(** A zero rate stored for the origin is replaced by the fallback. *)
Lemma zero_rate_fallback :
  exists b,
    calculateCosts
      (stateOf "2500000" "2000" "2" "japan" (initialKRAData "")
         {[ "japan" := zero ]}) = Some b /\
    shippingCost b = 150000.
Proof.
  exists_breakdown
    (stateOf "2500000" "2000" "2" "japan" (initialKRAData "")
       {[ "japan" := zero ]}).
  split; by_evaluation.
Qed.

(** C10, as stated, fails on a non-finite rate: [Infinity] is truthy, so it
    is kept as the shipping cost. *)
Lemma infinite_rate_is_kept :
  shippingRates infiniteRateState !! origin infiniteRateState = Some Infinity /\
  is_finite Infinity = false /\
  exists b,
    calculateCosts infiniteRateState = Some b /\
    shippingCost b = Infinity /\
    shippingCost b <> 150000.
Proof.
  split; [by_evaluation |]. split; [reflexivity |].
  exists_breakdown infiniteRateState.
  split; [by_evaluation |]. split; [reflexivity | discriminate].
Qed.

(** ** The band tables *)

(** C9: down the engine table the CC thresholds increase and the value
    multipliers never decrease; down the age table the age thresholds
    increase, the depreciation factors never increase, and each factor lies
    in (0, 1]. *)
Theorem band_tables_monotone :
  StronglySorted
    (fun x y => ltb (parseFloat (engine_value x)) (parseFloat (engine_value y)) = true)
    engineSizeOptions /\
  StronglySorted
    (fun x y => leb (multiplier x) (multiplier y) = true) engineSizeOptions /\
  StronglySorted
    (fun x y => ltb (parseFloat (age_value x)) (parseFloat (age_value y)) = true)
    ageOptions /\
  StronglySorted
    (fun x y => leb (depreciationFactor y) (depreciationFactor x) = true)
    ageOptions /\
  Forall
    (fun a => ltb zero (depreciationFactor a) = true /\
              leb (depreciationFactor a) 1 = true)
    ageOptions.
Proof.
  unfold engineSizeOptions, ageOptions.
  repeat split; repeat constructor.
Qed.

(** ** Counterexamples on the adjusted value and the VAT *)

(** C8, as stated, fails on the scenario of the specification: the factor
    0.95 is at most 1 and the multiplier 1.2 is at most the largest
    multiplier 1.6, yet the adjusted value 2,850,000 exceeds the declared
    2,500,000. *)
Lemma adjusted_value_can_exceed_declared :
  ltb zero (parseFloat (carValue exampleState)) = true /\
  exists e a b,
    selectEngine (engineSize exampleState) = Some e /\
    selectAge (age exampleState) = Some a /\
    leb (depreciationFactor a) 1 = true /\
    Forall (fun o => leb (multiplier o) 1.6 = true) engineSizeOptions /\
    leb (multiplier e) 1.6 = true /\
    calculateCosts exampleState = Some b /\
    leb (adjustedValue b) (parseFloat (carValue exampleState)) = false.
Proof.
  split; [by_evaluation |].
  exists {| engine_value := "2000"; engine_label := "1501-2000cc";
            multiplier := 1.2 |},
         {| age_value := "2"; age_label := "1-2 years";
            depreciationFactor := 0.95 |},
         exampleCosts.
  split; [by_evaluation |].
  split; [by_evaluation |].
  split; [by_evaluation |].
  split; [unfold engineSizeOptions; repeat constructor |].
  split; [by_evaluation |].
  split; by_evaluation.
Qed.

(** C1, as stated, fails where the adjusted value overflows: declared
    1.5e308 in the band above 4000cc gives an infinite adjusted value, and
    the VAT is then [Infinity], the same as the adjusted value times the
    VAT rate, although the three rates are not zero. *)
Lemma vat_equals_naive_on_overflow :
  exists b,
    calculateCosts overflowState = Some b /\
    truthy (importDutyRate (kraData overflowState)) = true /\
    truthy (exciseDutyRate (kraData overflowState)) = true /\
    truthy (vatRate (kraData overflowState)) = true /\
    adjustedValue b = Infinity /\
    vat b = adjustedValue b * vatRate (kraData overflowState) /\
    eqb (vat b) (adjustedValue b * vatRate (kraData overflowState)) = true.
Proof.
  exists_breakdown overflowState.
  split; [by_evaluation |]. repeat split; by_evaluation.
Qed.

(** ** Bounds on the adjusted value and the VAT *)

Lemma adjusted_value_valid st b :
  calculateCosts st = Some b -> valid (adjustedValue b).
Proof.
  intros H. apply calculateCosts_inv in H as (e & a & _ & He & Ha & ->).
  apply selectEngine_In in He as [Ie _]. apply selectAge_In in Ha as [Ia _].
  destruct (engine_band_facts e Ie) as (Vm & _).
  destruct (age_band_facts a Ia) as (Vf & _).
  cbn [adjustedValue costsOf].
  auto using mul_valid, parseFloat_valid.
Qed.

(** C8, as the code has it: for a declared value v above zero and two known
    bands (whose factor is at most 1 and whose multiplier is at most the
    largest multiplier 1.6), the adjusted value is at most v times the
    engine multiplier; it is at most v itself when that multiplier is 1.0,
    the band below 1000cc. *)
Theorem adjusted_value_bound st e a :
  ltb zero (parseFloat (carValue st)) = true ->
  selectEngine (engineSize st) = Some e ->
  selectAge (age st) = Some a ->
  leb (depreciationFactor a) 1 = true /\
  leb (multiplier e) 1.6 = true /\
  exists b,
    calculateCosts st = Some b /\
    leb (adjustedValue b) (parseFloat (carValue st) * multiplier e) = true /\
    (multiplier e = 1.0 ->
     leb (adjustedValue b) (parseFloat (carValue st)) = true).
Proof.
  intros Pv He Ha.
  pose proof (parseFloat_valid (carValue st)) as Vv.
  pose proof (selectEngine_In _ _ He) as [Ie _].
  pose proof (selectAge_In _ _ Ha) as [Ia _].
  destruct (engine_band_facts e Ie) as (Vm & Pm & _ & Lm).
  destruct (age_band_facts a Ia) as (Vf & Pf & Lf).
  split; [exact Lf |]. split; [exact Lm |].
  eexists. split; [apply calculateCosts_ready; eauto using positive_truthy |].
  cbn [adjustedValue costsOf].
  assert (H : leb (parseFloat (carValue st) * multiplier e * depreciationFactor a)
                  (parseFloat (carValue st) * multiplier e) = true).
  { apply mul_factor_le; try assumption.
    - apply mul_valid; assumption.
    - apply mul_pos_shape; assumption. }
  split; [exact H |].
  intros E1. rewrite E1 in H |- *. rewrite mul_one in H |- * by exact Vv. exact H.
Qed.

Lemma adjusted_value_bound_witness :
  ltb zero (parseFloat (carValue exampleState)) = true /\
  exists b,
    calculateCosts exampleState = Some b /\
    leb (adjustedValue b)
        (parseFloat (carValue exampleState) *
         multiplier {| engine_value := "2000"; engine_label := "1501-2000cc";
                       multiplier := 1.2 |}) = true.
Proof.
  assert (Pv : ltb zero (parseFloat (carValue exampleState)) = true)
    by (vm_compute; reflexivity).
  assert (He : selectEngine (engineSize exampleState) =
               Some {| engine_value := "2000"; engine_label := "1501-2000cc";
                       multiplier := 1.2 |})
    by (vm_compute; reflexivity).
  assert (Ha : selectAge (age exampleState) =
               Some {| age_value := "2"; age_label := "1-2 years";
                       depreciationFactor := 0.95 |})
    by (vm_compute; reflexivity).
  split; [exact Pv |].
  destruct (adjusted_value_bound exampleState _ _ Pv He Ha)
    as (_ & _ & b & Hb & Hle & _).
  exists b. split; [exact Hb | exact Hle].
Defined.

(** C1, as the code has it: in every breakdown the two duties are the
    adjusted value times their rates and the VAT is the VAT rate applied to
    adjustedValue + importDuty + exciseDuty; with the rates the component
    uses (25%, 25% and 16%) and an adjusted value from 1e-300 to 1e300 this
    VAT is strictly above the adjusted value times the VAT rate. *)
Theorem vat_on_duty_inclusive_base st b :
  calculateCosts st = Some b ->
  importDuty b = adjustedValue b * importDutyRate (kraData st) /\
  exciseDuty b = adjustedValue b * exciseDutyRate (kraData st) /\
  vat b =
    (adjustedValue b + importDuty b + exciseDuty b) * vatRate (kraData st) /\
  (importDutyRate (kraData st) = 0.25 ->
   exciseDutyRate (kraData st) = 0.25 ->
   vatRate (kraData st) = 0.16 ->
   leb 1e-300 (adjustedValue b) = true ->
   leb (adjustedValue b) 1e300 = true ->
   ltb (adjustedValue b * vatRate (kraData st)) (vat b) = true).
Proof.
  intros Hb. pose proof (adjusted_value_valid st b Hb) as Vx.
  apply calculateCosts_inv in Hb as (e & a & _ & _ & _ & ->).
  cbn [adjustedValue importDuty exciseDuty vat costsOf] in *.
  repeat split.
  intros -> -> -> Hlo Hhi.
  destruct (adjusted_in_range _ Vx Hlo Hhi) as (mx & ex & Ex & Hex & Hmx).
  rewrite Ex in *. apply cascading_vat_above; assumption.
Qed.

Lemma vat_on_duty_inclusive_base_witness :
  calculateCosts exampleState = Some exampleCosts /\
  vat exampleCosts =
    (adjustedValue exampleCosts + importDuty exampleCosts +
     exciseDuty exampleCosts) * vatRate (kraData exampleState) /\
  ltb (adjustedValue exampleCosts * vatRate (kraData exampleState))
      (vat exampleCosts) = true.
Proof.
  assert (Hb : calculateCosts exampleState = Some exampleCosts)
    by (vm_compute; reflexivity).
  assert (Hlo : leb 1e-300 (adjustedValue exampleCosts) = true)
    by (vm_compute; reflexivity).
  assert (Hhi : leb (adjustedValue exampleCosts) 1e300 = true)
    by (vm_compute; reflexivity).
  destruct (vat_on_duty_inclusive_base exampleState exampleCosts Hb)
    as (_ & _ & Hv & Hlt).
  split; [exact Hb |]. split; [exact Hv |].
  exact (Hlt eq_refl eq_refl eq_refl Hlo Hhi).
Defined.

(** * The rest of the components

    Properties of the code around [calculateCosts] and of the two other
    components. *)

Local Close Scope js_scope.

(** * The slideshow *)

Lemma slide_range_cases i :
  0 <= i < 5 -> i = 0 \/ i = 1 \/ i = 2 \/ i = 3 \/ i = 4.
Proof. lia. Qed.

Lemma nextSlide_range i : 0 <= i < 5 -> 0 <= Hero.nextSlide i < 5.
Proof.
  intros H. destruct (slide_range_cases i H) as [-> | [-> | [-> | [-> | ->]]]];
    vm_compute; split; congruence.
Qed.

Lemma prevSlide_range i : 0 <= i < 5 -> 0 <= Hero.prevSlide i < 5.
Proof.
  intros H. destruct (slide_range_cases i H) as [-> | [-> | [-> | [-> | ->]]]];
    vm_compute; split; congruence.
Qed.

Lemma hero_handle_range ev i :
  Hero.possible ev = true -> 0 <= i < 5 -> 0 <= Hero.handle ev i < 5.
Proof.
  intros Hp Hi. destruct ev as [| | |index]; cbn [Hero.handle].
  - now apply nextSlide_range.
  - now apply nextSlide_range.
  - now apply prevSlide_range.
  - cbn [Hero.possible] in Hp. apply Nat.ltb_lt in Hp.
    change (length Hero.carSlides) with 5%nat in Hp. lia.
Qed.

Lemma hero_run_range evs :
  forall i j, 0 <= i < 5 -> Hero.run evs i = Some j -> 0 <= j < 5.
Proof.
  induction evs as [|ev evs IH]; intros i j Hi Hrun; cbn [Hero.run] in Hrun.
  - injection Hrun as <-. exact Hi.
  - destruct (Hero.possible ev) eqn:Hp; [| discriminate].
    eapply IH; [| exact Hrun]. now apply hero_handle_range.
Qed.

(** X1: whatever the timer and the clicks do, [currentSlide] stays an index
    of [carSlides], so the slide the headline reads is defined. *)
Theorem current_slide_is_defined currentSlide :
  Hero.reachable currentSlide ->
  0 <= currentSlide < Z.of_nat (length Hero.carSlides) /\
  exists slide, Hero.slideAt currentSlide = Some slide.
Proof.
  intros [evs Hrun].
  assert (H : 0 <= currentSlide < 5) by (eapply hero_run_range; [| exact Hrun]; lia).
  split; [exact H |].
  destruct (slide_range_cases _ H) as [-> | [-> | [-> | [-> | ->]]]];
    eexists; reflexivity.
Qed.

Lemma current_slide_is_defined_witness :
  Hero.reachable 4 /\
  exists slide, Hero.slideAt 4 = Some slide /\ Hero.brand slide = "Honda".
Proof.
  assert (R : Hero.reachable 4)
    by (exists [Hero.ClickIndicator 2; Hero.TimerFires; Hero.ClickNext];
        reflexivity).
  split; [exact R |].
  destruct (current_slide_is_defined 4 R) as [_ [slide Hs]].
  exists slide. split; [exact Hs |].
  vm_compute in Hs. injection Hs as <-. reflexivity.
Defined.

(** X2: on the indices of [carSlides] the two arrows undo each other; the
    next arrow wraps from the last slide to the first and the previous arrow
    from the first to the last, never to a negative index. *)
Theorem arrows_are_inverse i :
  0 <= i < Z.of_nat (length Hero.carSlides) ->
  Hero.prevSlide (Hero.nextSlide i) = i /\
  Hero.nextSlide (Hero.prevSlide i) = i /\
  Hero.nextSlide i = (if (i =? 4)%Z then 0 else i + 1) /\
  Hero.prevSlide i = (if (i =? 0)%Z then 4 else i - 1).
Proof.
  intros H. change (Z.of_nat (length Hero.carSlides)) with 5 in H.
  destruct (slide_range_cases i H) as [-> | [-> | [-> | [-> | ->]]]];
    repeat split.
Qed.

Lemma arrows_are_inverse_witness :
  Hero.prevSlide (Hero.nextSlide 4) = 4 /\ Hero.prevSlide 0 = 4.
Proof.
  destruct (arrows_are_inverse 4) as (H1 & _); [vm_compute; split; congruence |].
  destruct (arrows_are_inverse 0) as (_ & _ & _ & H4); [vm_compute; split; congruence |].
  split; [exact H1 | exact H4].
Defined.

Lemma nextSlide_mod i : 0 <= i < 5 -> Hero.nextSlide i = (i + 1) mod 5.
Proof.
  intros H. destruct (slide_range_cases i H) as [-> | [-> | [-> | [-> | ->]]]];
    reflexivity.
Qed.

(** X3: after [n] firings of the timer the slide [i] has become
    [(i + n) mod 5]: the show returns to the same slide after five firings
    and shows every slide on the way. *)
Theorem timer_cycles_through_slides i n :
  0 <= i < Z.of_nat (length Hero.carSlides) ->
  Hero.run (repeat Hero.TimerFires n) i = Some ((i + Z.of_nat n) mod 5) /\
  Hero.run (repeat Hero.TimerFires 5) i = Some i /\
  forall j, 0 <= j < 5 ->
    Hero.run (repeat Hero.TimerFires (Z.to_nat ((j - i) mod 5))) i = Some j.
Proof.
  intros H. change (Z.of_nat (length Hero.carSlides)) with 5 in H.
  assert (G : forall n i, 0 <= i < 5 ->
            Hero.run (repeat Hero.TimerFires n) i = Some ((i + Z.of_nat n) mod 5)).
  { clear. intros n. induction n as [|n IH]; intros i H.
    - cbn [repeat Hero.run]. rewrite Z.add_0_r, Z.mod_small by lia. reflexivity.
    - cbn [repeat Hero.run Hero.possible Hero.handle].
      rewrite IH by (now apply nextSlide_range).
      rewrite nextSlide_mod by exact H.
      rewrite Zplus_mod_idemp_l. f_equal. f_equal. lia. }
  split; [apply G; exact H |]. split.
  - rewrite G by exact H. change (Z.of_nat 5) with 5.
    rewrite <- (Z.mul_1_l 5) at 1. rewrite Z_mod_plus_full, Z.mod_small by lia.
    reflexivity.
  - intros j Hj. rewrite G by exact H.
    rewrite Z2Nat.id by (apply Z.mod_pos_bound; lia).
    rewrite Zplus_mod_idemp_r. replace (i + (j - i)) with j by lia.
    rewrite Z.mod_small by lia. reflexivity.
Qed.

Lemma timer_cycles_through_slides_witness :
  Hero.run (repeat Hero.TimerFires 7) 3 = Some 0.
Proof.
  destruct (timer_cycles_through_slides 3 7) as [H _]; [vm_compute; split; congruence |].
  exact H.
Defined.

(** * The inventory view *)

(** X4: the badge of an arrival has a colour of its own for each of the
    three statuses, and the gray one for any other string and only then. *)
Theorem status_colours_distinguish s t :
  (VehicleShowcase.getStatusColor s = "bg-gray-100 text-gray-800" <->
   ~ In s VehicleShowcase.statuses) /\
  (In s VehicleShowcase.statuses -> In t VehicleShowcase.statuses ->
   VehicleShowcase.getStatusColor s = VehicleShowcase.getStatusColor t ->
   s = t).
Proof.
  unfold VehicleShowcase.getStatusColor, VehicleShowcase.statuses. cbn [In].
  split.
  - destruct (String.eqb_spec s "in_transit") as [->|N1]; [split; [discriminate | intros H; exfalso; apply H; auto] |].
    destruct (String.eqb_spec s "arrived") as [->|N2]; [split; [discriminate | intros H; exfalso; apply H; auto] |].
    destruct (String.eqb_spec s "clearing") as [->|N3]; [split; [discriminate | intros H; exfalso; apply H; auto] |].
    split; [| reflexivity]. intros _ [H | [H | [H | []]]]; congruence.
  - intros [<- | [<- | [<- | []]]] [<- | [<- | [<- | []]]]; cbn; intros H;
      try reflexivity; discriminate.
Qed.

(** [find] returns the first element that passes the test *)
Lemma find_first {A} (f : A -> bool) l x :
  find f l = Some x ->
  exists before after,
    l = (before ++ x :: after)%list /\ f x = true /\
    Forall (fun y => f y = false) before.
Proof.
  induction l as [|a l IH]; cbn [find]; [discriminate |].
  destruct (f a) eqn:Fa.
  - intros [= <-]. exists [], l. repeat split; [exact Fa | constructor].
  - intros H. destruct (IH H) as (before & after & -> & Fx & Hb).
    exists (a :: before), after. repeat split; [exact Fx |].
    constructor; assumption.
Qed.

Lemma find_none_all {A} (f : A -> bool) l :
  find f l = None <-> Forall (fun y => f y = false) l.
Proof.
  induction l as [|a l IH]; cbn [find].
  - split; [constructor | reflexivity].
  - destruct (f a) eqn:Fa.
    + split; [discriminate |]. intros H. inversion H; congruence.
    + rewrite IH. split; [constructor; assumption |]. intros H. now inversion H.
Qed.

Section Inventory.

Variable Vehicle : Type.
Variables (id make model : Vehicle -> string).
Variables (year price : Vehicle -> number).

(** X5: an inquiry always opens the modal for the id it was given.  When
    no vehicle of the list has that id the modal opens without vehicle
    details; otherwise the details are those of the first vehicle of the
    list with that id. *)
Theorem inquiry_takes_first_match vehicles vehicleId :
  VehicleShowcase.isOpen (VehicleShowcase.handleInquire Vehicle id make model year price vehicles vehicleId) = true /\
  VehicleShowcase.vehicleId (VehicleShowcase.handleInquire Vehicle id make model year price vehicles vehicleId) = Some vehicleId /\
  (VehicleShowcase.vehicleInfo (VehicleShowcase.handleInquire Vehicle id make model year price vehicles vehicleId) = None <->
   Forall (fun v => id v <> vehicleId) vehicles) /\
  (forall info,
     VehicleShowcase.vehicleInfo (VehicleShowcase.handleInquire Vehicle id make model year price vehicles vehicleId) = Some info ->
     exists before vehicle after,
       vehicles = (before ++ vehicle :: after)%list /\
       id vehicle = vehicleId /\
       Forall (fun v => id v <> vehicleId) before /\
       info = {| VehicleShowcase.info_make := make vehicle;
                 VehicleShowcase.info_model := model vehicle;
                 VehicleShowcase.info_year := year vehicle;
                 VehicleShowcase.info_price := price vehicle |}).
Proof.
  unfold VehicleShowcase.handleInquire.
  cbn [VehicleShowcase.isOpen VehicleShowcase.vehicleId VehicleShowcase.vehicleInfo].
  split; [reflexivity |]. split; [reflexivity |].
  assert (Neq : forall l, Forall (fun y => String.eqb (id y) vehicleId = false) l <->
                          Forall (fun v => id v <> vehicleId) l).
  { intros l. split; intros H; (eapply List.Forall_impl; [| exact H]); intros v Hv.
    - now apply String.eqb_neq.
    - now apply String.eqb_neq. }
  destruct (find (fun v => String.eqb (id v) vehicleId) vehicles) as [v|] eqn:Hf.
  - split.
    + split; [discriminate |]. intros H. apply Neq, find_none_all in H. congruence.
    + intros info [= <-].
      destruct (find_first _ _ _ Hf) as (before & after & -> & Hv & Hb).
      exists before, v, after. repeat split.
      * now apply String.eqb_eq.
      * now apply Neq.
  - split.
    + split; [| reflexivity]. intros _. apply Neq, find_none_all. exact Hf.
    + intros info H. discriminate.
Qed.

(** X6: the results show the spinner while loading and the empty notice
    for an empty list; otherwise the featured block is always rendered (its
    guard cannot fail there), holds the first three vehicles, or all of
    them when there are fewer, and the full list below repeats them. *)
Theorem featured_are_first_three loading vehicles :
  match VehicleShowcase.renderResults Vehicle loading vehicles with
  | VehicleShowcase.Spinner => loading = true
  | VehicleShowcase.NoVehiclesFound => loading = false /\ vehicles = []
  | VehicleShowcase.Lists featured all =>
      loading = false /\ vehicles <> [] /\ all = vehicles /\
      exists shown rest,
        featured = Some shown /\ shown <> [] /\
        vehicles = (shown ++ rest)%list /\
        length shown = Nat.min 3 (length vehicles)
  end.
Proof.
  unfold VehicleShowcase.renderResults, VehicleShowcase.slice_0_3.
  destruct loading; [reflexivity |].
  destruct vehicles as [|v vehicles]; [split; reflexivity |].
  cbn [length Nat.eqb].
  split; [reflexivity |]. split; [discriminate |]. split; [reflexivity |].
  exists (firstn 3 (v :: vehicles)), (skipn 3 (v :: vehicles)).
  split; [reflexivity |]. split; [discriminate |].
  split; [symmetry; apply firstn_skipn | apply length_firstn].
Qed.

End Inventory.

(** * The calculator as a whole *)

Lemma leb_trans x y z :
  valid x -> valid y -> valid z ->
  leb x y = true -> leb y z = true -> leb x z = true.
Proof.
  intros Vx Vy Vz H1 H2.
  assert (Nx : is_nan x = false) by (destruct x; try reflexivity; discriminate).
  assert (Nz : is_nan z = false)
    by (destruct z; try reflexivity; destruct y; discriminate).
  apply leb_value; try assumption.
  pose proof (leb_value_inv _ _ Vx Vy H1). pose proof (leb_value_inv _ _ Vy Vz H2).
  lia.
Qed.

Lemma leb_refl_valid x : valid x -> is_nan x = false -> leb x x = true.
Proof. intros V N. apply leb_value; try assumption. lia. Qed.

Lemma valid_representable m e :
  valid (S754_finite false m e) -> representable (Zpos m) e.
Proof.
  intros V. apply valid_finite_inv in V as (He & _ & _ & Hm & _).
  split; assumption.
Qed.

Lemma value_one : value 1%js = 2 ^ bias.
Proof. vm_compute. reflexivity. Qed.

(** a random number is a zero or a positive number below 1 *)
Lemma isRandom_inv r :
  Calculator.isRandom r = true ->
  valid r /\
  ((exists s, r = S754_zero s) \/ (pos_finite r /\ value r < 2 ^ bias)).
Proof.
  unfold Calculator.isRandom. intros H.
  apply andb_true_iff in H as [H H3]. apply andb_true_iff in H as [H1 H2].
  split; [exact H1 |].
  assert (V1 : valid 1%js) by reflexivity.
  pose proof (ltb_value_inv r 1%js H1 V1 H3) as Hv. rewrite value_one in Hv.
  destruct r as [s|[|]| |[|] m e]; try discriminate.
  - left. eexists; reflexivity.
  - right. split; [eexists _, _; reflexivity | exact Hv].
Qed.

(** a base rate plus a random share of its fluctuation stays between the
    base and the base plus the fluctuation *)
Lemma fluctuation_within base spread top r :
  valid base -> valid spread -> valid top ->
  pos_finite base -> pos_finite spread -> pos_finite top ->
  value base + value spread <= value top ->
  Calculator.isRandom r = true ->
  valid (base + r * spread)%js /\
  leb base (base + r * spread)%js = true /\
  leb (base + r * spread)%js top = true.
Proof.
  intros Vb Vs Vt Pb Ps Pt Hsum Hr.
  destruct (isRandom_inv r Hr) as [Vr Hcases].
  assert (Nb : is_nan base = false) by (destruct Pb as (m & e & ->); reflexivity).
  assert (Hbt : leb base top = true).
  { apply leb_value; try assumption.
    - destruct Pt as (m & e & ->); reflexivity.
    - pose proof (pos_finite_value spread Ps Vs). lia. }
  assert (Hzero : forall s, (base + S754_zero s)%js = base).
  { intros s. destruct Pb as (m & e & ->). reflexivity. }
  assert (Base : valid base /\ leb base base = true /\ leb base top = true).
  { split; [exact Vb |]. split; [apply leb_refl_valid; assumption | exact Hbt]. }
  destruct Hcases as [[s ->] | [Pr Hlt]].
  - replace (S754_zero s * spread)%js with (S754_zero s)
      by (destruct Ps as (m & e & ->); destruct s; reflexivity).
    rewrite Hzero. exact Base.
  - set (p := (r * spread)%js).
    destruct (Ps) as (ms & es & Es).
    assert (Rs : representable (Zpos ms) es)
      by (apply valid_representable; rewrite <- Es; exact Vs).
    assert (Evs : value spread = zval (Zpos ms) es) by (rewrite Es; reflexivity).
    pose proof (pos_finite_value r Pr Vr) as Br.
    pose proof (pos_finite_value spread Ps Vs) as Bs.
    destruct (mul_upper r spread Vr Vs Pr Ps _ _ Rs) as [Fp Up].
    { rewrite <- Evs. rewrite (Z.mul_comm (value r)).
      apply Z.mul_le_mono_nonneg_l; lia. }
    fold p in Fp, Up. rewrite <- Evs in Up.
    assert (Vp : valid p) by (apply mul_valid; assumption).
    assert (Pr0 : ltb zero r = true) by (destruct Pr as (m & e & ->); reflexivity).
    assert (Ps0 : ltb zero spread = true) by (rewrite Es; reflexivity).
    destruct (mul_pos_shape r spread Vr Vs Pr0 Ps0) as [Ep | [Ep | Pp]]; fold p in Ep || fold p in Pp.
    + rewrite Ep, Hzero. exact Base.
    + rewrite Ep in Fp. discriminate.
    + destruct (Pb) as (mb & eb & Eb). destruct (Pt) as (mt & et & Et).
      assert (Rb : representable (Zpos mb) eb)
        by (apply valid_representable; rewrite <- Eb; exact Vb).
      assert (Rt : representable (Zpos mt) et)
        by (apply valid_representable; rewrite <- Et; exact Vt).
      assert (Evb : value base = zval (Zpos mb) eb) by (rewrite Eb; reflexivity).
      assert (Evt : value top = zval (Zpos mt) et) by (rewrite Et; reflexivity).
      pose proof (pos_finite_value p Pp Vp) as Bp.
      destruct (add_upper base p Vb Vp Pb Pp _ _ Rt) as [Fx Ux]; [lia |].
      pose proof (add_lower base p Vb Vp Pb Pp _ _ Rb ltac:(lia)) as Lx.
      assert (Vx : valid (base + p)%js) by (apply add_valid; assumption).
      split; [exact Vx |]. split.
      * apply leb_value; try assumption; [apply finite_not_nan; exact Fx | lia].
      * apply leb_value; try assumption;
          [apply finite_not_nan; exact Fx | rewrite Et; reflexivity | lia].
Qed.

Lemma rate_japan r :
  Calculator.isRandom r = true ->
  valid (150000 + r * 20000)%js /\
  leb 150000%js (150000 + r * 20000)%js = true /\
  leb (150000 + r * 20000)%js 170000%js = true.
Proof.
  apply fluctuation_within;
    first [ reflexivity | eexists _, _; reflexivity | vm_compute; discriminate ].
Qed.

Lemma rate_uk r :
  Calculator.isRandom r = true ->
  valid (200000 + r * 25000)%js /\
  leb 200000%js (200000 + r * 25000)%js = true /\
  leb (200000 + r * 25000)%js 225000%js = true.
Proof.
  apply fluctuation_within;
    first [ reflexivity | eexists _, _; reflexivity | vm_compute; discriminate ].
Qed.

Lemma rate_uae r :
  Calculator.isRandom r = true ->
  valid (180000 + r * 22000)%js /\
  leb 180000%js (180000 + r * 22000)%js = true /\
  leb (180000 + r * 22000)%js 202000%js = true.
Proof.
  apply fluctuation_within;
    first [ reflexivity | eexists _, _; reflexivity | vm_compute; discriminate ].
Qed.

Lemma lookup_three (a b c : number) key :
  ({[ "japan" := a; "uk" := b; "uae" := c ]} : gmap string number) !! key =
    if String.eqb key "japan" then Some a
    else if String.eqb key "uk" then Some b
    else if String.eqb key "uae" then Some c
    else None.
Proof.
  destruct (String.eqb_spec key "japan") as [->|N1]; [by simplify_map_eq |].
  destruct (String.eqb_spec key "uk") as [->|N2]; [by simplify_map_eq |].
  destruct (String.eqb_spec key "uae") as [->|N3]; by simplify_map_eq.
Qed.

Lemma existsb_find {A} (f : A -> bool) l :
  existsb f l = true -> exists x, find f l = Some x.
Proof.
  induction l as [|a l IH]; cbn; [discriminate |].
  destruct (f a); [eauto | exact IH].
Qed.

Lemma invariant_initial now : Calculator.Invariant (Calculator.initialHooks now).
Proof.
  unfold Calculator.Invariant, Calculator.initialHooks, initialState.
  cbn [Calculator.inputs kraData shippingRates origin engineSize age
       initialKRAData importDutyRate exciseDutyRate vatRate].
  repeat split; auto.
  - left. reflexivity.
  - exists 150000%js. unfold initialShippingRates. rewrite lookup_three. repeat split.
  - exists 200000%js. unfold initialShippingRates. rewrite lookup_three. repeat split.
  - exists 180000%js. unfold initialShippingRates. rewrite lookup_three. repeat split.
Qed.

Lemma invariant_handle ev h :
  Calculator.possible ev h = true ->
  Calculator.Invariant h -> Calculator.Invariant (Calculator.handle ev h).
Proof.
  intros Hp (I1 & I2 & I3 & I4 & I5 & I6 & I7 & I8 & I9).
  destruct ev as [v|v|v|v| | |now|r1 r2 r3];
    cbn [Calculator.handle Calculator.possible] in *;
    unfold Calculator.Invariant;
    cbn [Calculator.setCarValue Calculator.setEngineSize Calculator.setAge
         Calculator.setOrigin Calculator.handleCalculate
         Calculator.fetchKRAData_start Calculator.fetchKRAData_done
         Calculator.fetchShippingRates Calculator.withInputs
         Calculator.inputs kraData shippingRates origin engineSize age
         importDutyRate exciseDutyRate vatRate];
    try (repeat split; assumption).
  - (* the engine select *)
    repeat split; try assumption.
    apply orb_true_iff in Hp as [Hp | Hp].
    + left. now apply String.eqb_eq.
    + right. apply existsb_find in Hp. exact Hp.
  - (* the age select *)
    repeat split; try assumption.
    apply orb_true_iff in Hp as [Hp | Hp].
    + left. now apply String.eqb_eq.
    + right. apply existsb_find in Hp. exact Hp.
  - (* an origin button *)
    repeat split; try assumption.
    apply existsb_exists in Hp as (o & Ho & Heq).
    apply String.eqb_eq in Heq. subst o. exact Ho.
  - (* new shipping rates *)
    apply andb_true_iff in Hp as [Hp R3]. apply andb_true_iff in Hp as [R1 R2].
    destruct (rate_japan r1 R1) as (V1 & L1 & U1).
    destruct (rate_uk r2 R2) as (V2 & L2 & U2).
    destruct (rate_uae r3 R3) as (V3 & L3 & U3).
    repeat split; try assumption.
    + eexists. rewrite lookup_three. cbn. repeat split; assumption.
    + eexists. rewrite lookup_three. cbn. repeat split; assumption.
    + eexists. rewrite lookup_three. cbn. repeat split; assumption.
Qed.

Lemma invariant_run evs :
  forall h h', Calculator.Invariant h -> Calculator.run evs h = Some h' ->
               Calculator.Invariant h'.
Proof.
  induction evs as [|ev evs IH]; intros h h' Hi Hrun; cbn [Calculator.run] in Hrun.
  - injection Hrun as <-. exact Hi.
  - destruct (Calculator.possible ev h) eqn:Hp; [| discriminate].
    eapply IH; [| exact Hrun]. now apply invariant_handle.
Qed.

Lemma invariant_reachable h : Calculator.reachable h -> Calculator.Invariant h.
Proof.
  intros (now & evs & Hrun). eapply invariant_run; [| exact Hrun].
  apply invariant_initial.
Qed.

(** * Amounts that are not negative *)

Lemma nonneg_not_nan x : Calculator.nonneg x -> is_nan x = false.
Proof. intros [-> | [-> | (m & e & ->)]]; reflexivity. Qed.

Lemma nonneg_leb_zero x : Calculator.nonneg x -> leb zero x = true.
Proof. intros [-> | [-> | (m & e & ->)]]; reflexivity. Qed.

Lemma positive_value_nonneg x :
  valid x -> 0 < value x -> Calculator.nonneg x.
Proof.
  intros V H. destruct x as [s|[|]| |[|] m e]; cbn [value cond_Zopp] in H; try lia.
  - exfalso. assert (0 < zval 1 1024) by (apply zval_pos; [| unfold bias]; lia). lia.
  - right; left; reflexivity.
  - exfalso. pose proof (value_finite_bound _ _ _ V). lia.
  - right; right. eexists _, _; reflexivity.
Qed.

Lemma pos_finite_of_bounds y :
  valid y -> ltb zero y = true -> is_finite y = true -> pos_finite y.
Proof.
  intros V P F. destruct y as [s|s| |[|] m e]; try discriminate.
  eexists _, _; reflexivity.
Qed.

(** an amount that is not negative times a positive finite rate *)
Lemma mul_nonneg x y :
  valid x -> valid y -> Calculator.nonneg x -> pos_finite y ->
  valid (x * y)%js /\ Calculator.nonneg (x * y)%js.
Proof.
  intros Vx Vy Nx Py. split; [apply mul_valid; assumption |].
  destruct (Py) as (my & ey & Ey).
  destruct Nx as [-> | [-> | Px]].
  - rewrite Ey. left. reflexivity.
  - rewrite Ey. right; left. reflexivity.
  - apply mul_pos_shape; try assumption.
    + destruct Px as (m & e & ->). reflexivity.
    + rewrite Ey. reflexivity.
Qed.

(** the sum of two amounts that are not negative is at least each *)
Lemma add_nonneg x y :
  valid x -> valid y -> Calculator.nonneg x -> Calculator.nonneg y ->
  valid (x + y)%js /\ Calculator.nonneg (x + y)%js /\
  leb x (x + y)%js = true /\ leb y (x + y)%js = true.
Proof.
  intros Vx Vy Nx Ny.
  destruct Nx as [-> | [-> | Px]]; destruct Ny as [-> | [-> | Py]];
    try (repeat split; solve [ reflexivity | left; reflexivity
                             | right; left; reflexivity ]).
  - (* +0 and a positive number *)
    destruct (Py) as (m & e & ->). cbn [add SFadd].
    repeat split; try assumption; [right; right; exact Py |].
    apply leb_refl_valid; [exact Vy | reflexivity].
  - destruct (Py) as (m & e & ->). cbn [add SFadd].
    repeat split; right; left; reflexivity.
  - destruct (Px) as (m & e & ->). cbn [add SFadd].
    repeat split; try assumption; [right; right; exact Px |].
    apply leb_refl_valid; [exact Vx | reflexivity].
  - destruct (Px) as (m & e & ->). cbn [add SFadd].
    repeat split; right; left; reflexivity.
  - (* two positive numbers *)
    pose proof (pos_finite_value x Px Vx) as Bx.
    pose proof (pos_finite_value y Py Vy) as By.
    assert (V : valid (x + y)%js) by (apply add_valid; assumption).
    destruct (Px) as (mx & ex & Ex). destruct (Py) as (my & ey & Ey).
    assert (Rx : representable (Zpos mx) ex)
      by (apply valid_representable; rewrite <- Ex; exact Vx).
    assert (Ry : representable (Zpos my) ey)
      by (apply valid_representable; rewrite <- Ey; exact Vy).
    assert (Evx : value x = zval (Zpos mx) ex) by (rewrite Ex; reflexivity).
    assert (Evy : value y = zval (Zpos my) ey) by (rewrite Ey; reflexivity).
    pose proof (add_lower x y Vx Vy Px Py _ _ Rx ltac:(lia)) as Lx.
    pose proof (add_lower x y Vx Vy Px Py _ _ Ry ltac:(lia)) as Ly.
    assert (N : Calculator.nonneg (x + y)%js)
      by (apply positive_value_nonneg; [exact V | lia]).
    split; [exact V |]. split; [exact N |].
    split; apply leb_value; try assumption;
      solve [ apply nonneg_not_nan; assumption
            | rewrite Ex; reflexivity | rewrite Ey; reflexivity | lia ].
Qed.

(** adding one more amount to a running total keeps every amount seen so
    far below the total *)
Lemma extend_sum seen acc c :
  valid acc -> Calculator.nonneg acc -> valid c -> Calculator.nonneg c ->
  Forall (fun x => valid x /\ leb zero x = true /\ leb x acc = true) seen ->
  valid (acc + c)%js /\ Calculator.nonneg (acc + c)%js /\
  Forall (fun x => valid x /\ leb zero x = true /\ leb x (acc + c)%js = true)
    (c :: seen).
Proof.
  intros Va Na Vc Nc Hs.
  destruct (add_nonneg acc c Va Vc Na Nc) as (V' & N' & L1 & L2).
  split; [exact V' |]. split; [exact N' |].
  constructor.
  - split; [exact Vc |]. split; [apply nonneg_leb_zero; exact Nc | exact L2].
  - eapply List.Forall_impl; [| exact Hs]. intros x (Vx & Zx & Lx).
    split; [exact Vx |]. split; [exact Zx |].
    apply (leb_trans _ acc); assumption.
Qed.

Local Open Scope js_scope.

Lemma exampleHooks_reachable value :
  value <> "" -> Calculator.reachable (Calculator.exampleHooks value).
Proof.
  intros Hv. exists "", (Calculator.exampleEvents value).
  unfold Calculator.exampleEvents. cbn [Calculator.run Calculator.possible].
  cbn [existsb String.eqb Ascii.eqb Bool.eqb orb andb engineSizeOptions ageOptions
       engine_value age_value Calculator.originButtons].
  unfold Calculator.calculateDisabled.
  cbn [Calculator.handle Calculator.setCarValue Calculator.setEngineSize
       Calculator.setAge Calculator.setOrigin Calculator.withInputs
       Calculator.inputs Calculator.initialHooks carValue engineSize age
       truthy_string negb orb].
  destruct value as [|c value]; [congruence |]. reflexivity.
Qed.

(** X7: a refresh of the shipping rates stores, for each of the three
    origins, a rate between its base and its base plus its fluctuation
    (150,000 to 170,000 for japan, 200,000 to 225,000 for uk, 180,000 to
    202,000 for uae), and no rate for any other key. *)
Theorem refreshed_rates_within_bounds random1 random2 random3 h :
  Calculator.isRandom random1 = true ->
  Calculator.isRandom random2 = true ->
  Calculator.isRandom random3 = true ->
  let rates :=
    shippingRates
      (Calculator.inputs (Calculator.fetchShippingRates random1 random2 random3 h))
  in
  Calculator.rateWithin rates "japan" 150000 170000 /\
  Calculator.rateWithin rates "uk" 200000 225000 /\
  Calculator.rateWithin rates "uae" 180000 202000 /\
  forall key, ~ In key Calculator.originButtons -> rates !! key = None.
Proof.
  intros R1 R2 R3 rates. subst rates.
  cbn [Calculator.fetchShippingRates Calculator.withInputs Calculator.inputs
       shippingRates].
  destruct (rate_japan random1 R1) as (V1 & L1 & U1).
  destruct (rate_uk random2 R2) as (V2 & L2 & U2).
  destruct (rate_uae random3 R3) as (V3 & L3 & U3).
  split; [| split; [| split]].
  - eexists. rewrite lookup_three. cbn. repeat split; assumption.
  - eexists. rewrite lookup_three. cbn. repeat split; assumption.
  - eexists. rewrite lookup_three. cbn. repeat split; assumption.
  - intros key Hk. rewrite lookup_three. unfold Calculator.originButtons in Hk.
    cbn [In] in Hk.
    destruct (String.eqb_spec key "japan"); [exfalso; auto |].
    destruct (String.eqb_spec key "uk"); [exfalso; auto |].
    destruct (String.eqb_spec key "uae"); [exfalso; auto |]. reflexivity.
Qed.

Lemma refreshed_rates_within_bounds_witness :
  Calculator.rateWithin
    (shippingRates
       (Calculator.inputs
          (Calculator.fetchShippingRates 0.5 0 0.25 (Calculator.initialHooks ""))))
    "japan" 150000 170000.
Proof.
  assert (R1 : Calculator.isRandom 0.5 = true) by (vm_compute; reflexivity).
  assert (R2 : Calculator.isRandom 0 = true) by (vm_compute; reflexivity).
  assert (R3 : Calculator.isRandom 0.25 = true) by (vm_compute; reflexivity).
  exact (proj1 (refreshed_rates_within_bounds 0.5 0 0.25
                  (Calculator.initialHooks "") R1 R2 R3)).
Defined.

Lemma calculateCosts_same_inputs st st' :
  carValue st = carValue st' -> engineSize st = engineSize st' ->
  age st = age st' -> origin st = origin st' ->
  importDutyRate (kraData st) = importDutyRate (kraData st') ->
  exciseDutyRate (kraData st) = exciseDutyRate (kraData st') ->
  vatRate (kraData st) = vatRate (kraData st') ->
  shippingRates st = shippingRates st' ->
  calculateCosts st = calculateCosts st'.
Proof.
  intros H1 H2 H3 H4 H5 H6 H7 H8. unfold calculateCosts.
  rewrite H1, H2, H3, H4, H5, H6, H7, H8. reflexivity.
Qed.

(** X8: in every state the component can reach the tax rates are 25%, 25%
    and 16%, and the end of a tax-rate refresh, which only changes the date
    of the last update, leaves the result of [calculateCosts] as it was. *)
Theorem tax_refresh_keeps_breakdown h now :
  Calculator.reachable h ->
  importDutyRate (kraData (Calculator.inputs h)) = 0.25 /\
  exciseDutyRate (kraData (Calculator.inputs h)) = 0.25 /\
  vatRate (kraData (Calculator.inputs h)) = 0.16 /\
  calculateCosts (Calculator.inputs (Calculator.fetchKRAData_done now h)) =
    calculateCosts (Calculator.inputs h).
Proof.
  intros Hr. destruct (invariant_reachable h Hr) as (I1 & I2 & I3 & _).
  repeat split; try assumption.
  apply calculateCosts_same_inputs;
    cbn [Calculator.fetchKRAData_done Calculator.inputs carValue engineSize age
         origin kraData shippingRates importDutyRate exciseDutyRate vatRate];
    congruence.
Qed.

Lemma tax_refresh_keeps_breakdown_witness :
  calculateCosts
    (Calculator.inputs
       (Calculator.fetchKRAData_done "2026-01-01T00:00:00.000Z"
          (Calculator.exampleHooks "2500000"))) =
  calculateCosts (Calculator.inputs (Calculator.exampleHooks "2500000")).
Proof.
  destruct (tax_refresh_keeps_breakdown (Calculator.exampleHooks "2500000")
              "2026-01-01T00:00:00.000Z") as (_ & _ & _ & H).
  - apply exampleHooks_reachable. discriminate.
  - exact H.
Defined.

Lemma low_rate_truthy low rate :
  ltb zero low = true -> valid low -> valid rate ->
  leb low rate = true -> truthy rate = true.
Proof.
  intros Hl Vl Vr H.
  assert (Vz : valid zero) by reflexivity.
  pose proof (ltb_value_inv _ _ Vz Vl Hl) as H1.
  pose proof (leb_value_inv _ _ Vl Vr H) as H2.
  destruct rate; cbn in *; try reflexivity; lia.
Qed.

Lemma lookupShipping_some (rates : gmap string number) key rate :
  rates !! key = Some rate -> truthy rate = true ->
  lookupShipping rates key = Num rate.
Proof. intros H T. rewrite (lookupShipping_own _ _ _ H), T. reflexivity. Qed.

(** the shipping cost of a reachable state: the stored rate of the origin *)
Lemma reachable_shipping h :
  Calculator.Invariant h ->
  exists rate,
    shippingRates (Calculator.inputs h) !! origin (Calculator.inputs h) = Some rate /\
    lookupShipping (shippingRates (Calculator.inputs h))
      (origin (Calculator.inputs h)) = Num rate /\
    valid rate /\ leb 150000 rate = true /\ leb rate 225000 = true.
Proof.
  intros (_ & _ & _ & I4 & I5 & I6 & I7 & _).
  unfold Calculator.originButtons in I4. cbn [In] in I4.
  assert (G : forall key low high,
            origin (Calculator.inputs h) = key ->
            Calculator.rateWithin (shippingRates (Calculator.inputs h)) key low high ->
            valid low -> valid high -> ltb zero low = true ->
            leb 150000 low = true -> leb high 225000 = true ->
            exists rate,
              shippingRates (Calculator.inputs h) !! origin (Calculator.inputs h) = Some rate /\
              lookupShipping (shippingRates (Calculator.inputs h))
                (origin (Calculator.inputs h)) = Num rate /\
              valid rate /\ leb 150000 rate = true /\ leb rate 225000 = true).
  { intros key low high Ek (rate & Hl & Vr & L & U) Vlo Vhi Plo Llo Uhi.
    rewrite Ek. exists rate. split; [exact Hl |]. split.
    - apply lookupShipping_some; [exact Hl |].
      apply (low_rate_truthy low rate); assumption.
    - split; [exact Vr |]. split.
      + apply (leb_trans _ low); try assumption. reflexivity.
      + apply (leb_trans _ high); try assumption. reflexivity. }
  destruct I4 as [E | [E | [E | []]]]; symmetry in E.
  - apply (G "japan" 150000 170000); try assumption; reflexivity.
  - apply (G "uk" 200000 225000); try assumption; reflexivity.
  - apply (G "uae" 180000 202000); try assumption; reflexivity.
Qed.

(** X9: in every state the component can reach, the shipping cost of a
    breakdown is the rate stored for the origin, a number from 150,000 to
    225,000: the fallback [|| 150000] is never taken. *)
Theorem fallback_never_taken h costs :
  Calculator.reachable h ->
  calculateCosts (Calculator.inputs h) = Some costs ->
  exists rate : number,
    shippingCost costs = rate /\
    shippingRates (Calculator.inputs h) !! origin (Calculator.inputs h) =
      Some rate /\
    leb 150000 rate = true /\
    leb rate 225000 = true.
Proof.
  intros Hr Hc.
  destruct (reachable_shipping h (invariant_reachable h Hr))
    as (rate & Hl & Hs & _ & L & U).
  apply calculateCosts_inv in Hc as (e & a & _ & _ & _ & ->).
  exists rate. cbn [shippingCost costsOf]. rewrite Hs. repeat split; assumption.
Qed.

Lemma fallback_never_taken_witness :
  exists rate : number,
    shippingCost Calculator.exampleUkCosts = rate /\
    shippingRates (Calculator.inputs (Calculator.exampleHooks "2500000")) !!
      origin (Calculator.inputs (Calculator.exampleHooks "2500000")) =
      Some rate /\
    leb 150000 rate = true /\
    leb rate 225000 = true.
Proof.
  assert (R : Calculator.reachable (Calculator.exampleHooks "2500000"))
    by (apply exampleHooks_reachable; discriminate).
  assert (C : calculateCosts (Calculator.inputs (Calculator.exampleHooks "2500000")) =
              Some Calculator.exampleUkCosts) by (vm_compute; reflexivity).
  exact (fallback_never_taken _ _ R C).
Defined.

(** X10: in every state the component can reach, [calculateCosts] returns
    [null] exactly when the declared value parses to 0 or NaN or one of the
    two selectors is empty: the guard on unknown bands never fires.  Behind
    an enabled Calculate button only the declared value can be at fault. *)
Theorem null_only_for_missing_input h :
  Calculator.reachable h ->
  (calculateCosts (Calculator.inputs h) = None <->
   truthy (parseFloat (carValue (Calculator.inputs h))) = false \/
   engineSize (Calculator.inputs h) = "" \/
   age (Calculator.inputs h) = "") /\
  (Calculator.calculateDisabled h = false ->
   (calculateCosts (Calculator.inputs h) = None <->
    truthy (parseFloat (carValue (Calculator.inputs h))) = false)).
Proof.
  intros Hr.
  destruct (invariant_reachable h Hr) as (_ & _ & _ & _ & _ & _ & _ & I8 & I9).
  assert (Back : truthy (parseFloat (carValue (Calculator.inputs h))) = false \/
                 engineSize (Calculator.inputs h) = "" \/
                 age (Calculator.inputs h) = "" ->
                 calculateCosts (Calculator.inputs h) = None).
  { intros H. unfold calculateCosts.
    destruct H as [H | [H | H]]; rewrite H; cbn [negb truthy_string orb];
      rewrite ?orb_true_r; reflexivity. }
  assert (Forth : calculateCosts (Calculator.inputs h) = None ->
                  truthy (parseFloat (carValue (Calculator.inputs h))) = false \/
                  engineSize (Calculator.inputs h) = "" \/
                  age (Calculator.inputs h) = "").
  { intros Hn.
    destruct (truthy (parseFloat (carValue (Calculator.inputs h)))) eqn:Hv; [| auto].
    destruct I8 as [E | [e He]]; [auto |].
    destruct I9 as [E | [a Ha]]; [auto |].
    rewrite (calculateCosts_ready _ e a Hv He Ha) in Hn. discriminate. }
  split; [split; assumption |].
  intros Hd. unfold Calculator.calculateDisabled in Hd.
  apply orb_false_iff in Hd as [Hd Hd3]. apply orb_false_iff in Hd as [Hd1 Hd2].
  split; [| auto].
  intros Hn. destruct (Forth Hn) as [H | [H | H]]; [exact H | |];
    rewrite H in *; discriminate.
Qed.

Lemma null_only_for_missing_input_witness :
  calculateCosts
    (Calculator.inputs (Calculator.exampleHooks "0")) = None <->
  truthy (parseFloat (carValue (Calculator.inputs (Calculator.exampleHooks "0")))) = false.
Proof.
  assert (R : Calculator.reachable (Calculator.exampleHooks "0"))
    by (apply exampleHooks_reachable; discriminate).
  exact (proj2 (null_only_for_missing_input _ R) eq_refl).
Defined.

(** X11: the panel shows a breakdown only while [showResults] is set, the
    Calculate button is enabled (the three fields are filled in) and
    [calculateCosts] returns that breakdown for the present inputs. *)
Theorem breakdown_shown_only_when_enabled h costs :
  Calculator.panel h = Calculator.Breakdown costs ->
  Calculator.showResults h = true /\
  Calculator.calculateDisabled h = false /\
  calculateCosts (Calculator.inputs h) = Some costs.
Proof.
  unfold Calculator.panel, Calculator.results.
  destruct (Calculator.showResults h); cbn [negb]; [| discriminate].
  destruct (calculateCosts (Calculator.inputs h)) as [c|] eqn:Hc; [| discriminate].
  intros [= <-]. split; [reflexivity |]. split; [| reflexivity].
  apply calculateCosts_inv in Hc as (e & a & Hv & He & Ha & _).
  unfold Calculator.calculateDisabled.
  rewrite (selectEngine_truthy _ _ He), (selectAge_truthy _ _ Ha).
  destruct (carValue (Calculator.inputs h)); [discriminate | reflexivity].
Qed.

Lemma breakdown_shown_only_when_enabled_witness :
  Calculator.calculateDisabled (Calculator.exampleHooks "2500000") = false /\
  calculateCosts (Calculator.inputs (Calculator.exampleHooks "2500000")) =
    Some Calculator.exampleUkCosts.
Proof.
  assert (P : Calculator.panel (Calculator.exampleHooks "2500000") =
              Calculator.Breakdown Calculator.exampleUkCosts) by (vm_compute; reflexivity).
  exact (proj2 (breakdown_shown_only_when_enabled _ _ P)).
Defined.

Lemma handle_keeps_showResults ev h :
  Calculator.showResults h = true ->
  Calculator.showResults (Calculator.handle ev h) = true.
Proof. intros H. destruct ev; cbn; try exact H; reflexivity. Qed.

Lemma run_keeps_showResults evs :
  forall h h', Calculator.run evs h = Some h' ->
               Calculator.showResults h = true ->
               Calculator.showResults h' = true.
Proof.
  induction evs as [|ev evs IH]; intros h h' Hrun Hs; cbn [Calculator.run] in Hrun.
  - injection Hrun as <-. exact Hs.
  - destruct (Calculator.possible ev h); [| discriminate].
    eapply IH; [exact Hrun |]. now apply handle_keeps_showResults.
Qed.

(** X12: once Calculate has been clicked, whatever happens afterwards, the
    panel never shows the placeholder again: it shows the breakdown of the
    present inputs, or nothing when [calculateCosts] returns [null]. *)
Theorem placeholder_never_returns evs h h' :
  Calculator.run (Calculator.ClickCalculate :: evs) h = Some h' ->
  Calculator.showResults h' = true /\
  Calculator.panel h' <> Calculator.Placeholder /\
  Calculator.panel h' =
    match calculateCosts (Calculator.inputs h') with
    | Some costs => Calculator.Breakdown costs
    | None => Calculator.Blank
    end.
Proof.
  cbn [Calculator.run]. destruct (Calculator.possible _ h); [| discriminate].
  intros Hrun.
  assert (Hs : Calculator.showResults h' = true)
    by (eapply run_keeps_showResults; [exact Hrun | reflexivity]).
  split; [exact Hs |].
  unfold Calculator.panel, Calculator.results. rewrite Hs. cbn [negb].
  split; [| reflexivity].
  destruct (calculateCosts (Calculator.inputs h')); discriminate.
Qed.

Lemma placeholder_never_returns_witness :
  Calculator.panel
    {| Calculator.inputs :=
         stateOf "" "2000" "2" "japan" (initialKRAData "") initialShippingRates;
       Calculator.showResults := true;
       Calculator.loading := false |} = Calculator.Blank.
Proof.
  assert (R : Calculator.run
                [Calculator.ClickCalculate; Calculator.ChangeCarValue ""]
                {| Calculator.inputs :=
                     stateOf "1" "2000" "2" "japan" (initialKRAData "")
                       initialShippingRates;
                   Calculator.showResults := false;
                   Calculator.loading := false |} =
              Some
                {| Calculator.inputs :=
                     stateOf "" "2000" "2" "japan" (initialKRAData "")
                       initialShippingRates;
                   Calculator.showResults := true;
                   Calculator.loading := false |}) by reflexivity.
  destruct (placeholder_never_returns _ _ _ R) as (_ & _ & H).
  exact H.
Defined.

(** X13: each option a select offers resolves to its own band, and no two
    options of a table share a value. *)
Theorem options_resolve_to_themselves :
  Forall (fun o => selectEngine (engine_value o) = Some o) engineSizeOptions /\
  Forall (fun o => selectAge (age_value o) = Some o) ageOptions /\
  List.NoDup (map engine_value engineSizeOptions) /\
  List.NoDup (map age_value ageOptions).
Proof.
  unfold engineSizeOptions, ageOptions. cbn [map engine_value age_value].
  split; [repeat constructor |]. split; [repeat constructor |].
  split; repeat (constructor; [cbn [In]; intuition discriminate |]); constructor.
Qed.

Lemma fixed_fees_nonneg k :
  In k [85000; 15000; 25000; 5000; 3000; 12000] ->
  valid k /\ Calculator.nonneg k.
Proof.
  intros Hk. cbn [In] in Hk.
  repeat (destruct Hk as [<- | Hk];
          [split; [reflexivity | right; right; eexists _, _; reflexivity] |]).
  destruct Hk.
Qed.

(** the amounts of a breakdown computed with the rates 25%, 25% and 16%
    from an adjusted value and a shipping cost that are not negative *)
Lemma amounts_of_adjusted adj rate :
  valid adj -> Calculator.nonneg adj -> valid rate -> Calculator.nonneg rate ->
  let total :=
    adj + adj * 0.25 + adj * 0.25 + (adj + adj * 0.25 + adj * 0.25) * 0.16 +
    rate + 85000 + 15000 + 25000 + 5000 + 3000 + 12000 + adj * 0.03 in
  Forall (fun c => leb zero c = true /\ leb c total = true)
    [adj; adj * 0.25; adj * 0.25; (adj + adj * 0.25 + adj * 0.25) * 0.16;
     rate; 85000; 15000; 25000; 5000; 3000; 12000; adj * 0.03] /\
  leb zero total = true.
Proof.
  intros Va Na Vs Ns.
  assert (P25 : pos_finite 0.25) by (eexists _, _; reflexivity).
  assert (P16 : pos_finite 0.16) by (eexists _, _; reflexivity).
  assert (P03 : pos_finite 0.03) by (eexists _, _; reflexivity).
  assert (V25 : valid 0.25) by reflexivity.
  assert (V16 : valid 0.16) by reflexivity.
  assert (V03 : valid 0.03) by reflexivity.
  destruct (mul_nonneg adj 0.25 Va V25 Na P25) as [Vd Nd].
  destruct (mul_nonneg adj 0.03 Va V03 Na P03) as [Vsf Nsf].
  set (duty := adj * 0.25) in *. set (fee := adj * 0.03) in *.
  assert (S0 : Forall (fun x => valid x /\ leb zero x = true /\ leb x adj = true) [adj]).
  { constructor; [| constructor]. split; [exact Va |].
    split; [apply nonneg_leb_zero; exact Na |].
    apply leb_refl_valid; [exact Va | apply nonneg_not_nan; exact Na]. }
  destruct (extend_sum _ _ duty Va Na Vd Nd S0) as (V1 & N1 & S1).
  destruct (extend_sum _ _ duty V1 N1 Vd Nd S1) as (V2 & N2 & S2).
  destruct (mul_nonneg _ 0.16 V2 V16 N2 P16) as [Vvat Nvat].
  set (vat := (adj + duty + duty) * 0.16) in *.
  destruct (extend_sum _ _ vat V2 N2 Vvat Nvat S2) as (V3 & N3 & S3).
  destruct (extend_sum _ _ rate V3 N3 Vs Ns S3) as (V4 & N4 & S4).
  destruct (fixed_fees_nonneg 85000) as [Vf1 Nf1]; [cbn [In]; tauto |].
  destruct (fixed_fees_nonneg 15000) as [Vf2 Nf2]; [cbn [In]; tauto |].
  destruct (fixed_fees_nonneg 25000) as [Vf3 Nf3]; [cbn [In]; tauto |].
  destruct (fixed_fees_nonneg 5000) as [Vf4 Nf4]; [cbn [In]; tauto |].
  destruct (fixed_fees_nonneg 3000) as [Vf5 Nf5]; [cbn [In]; tauto |].
  destruct (fixed_fees_nonneg 12000) as [Vf6 Nf6]; [cbn [In]; tauto |].
  destruct (extend_sum _ _ _ V4 N4 Vf1 Nf1 S4) as (V5 & N5 & S5).
  destruct (extend_sum _ _ _ V5 N5 Vf2 Nf2 S5) as (V6 & N6 & S6).
  destruct (extend_sum _ _ _ V6 N6 Vf3 Nf3 S6) as (V7 & N7 & S7).
  destruct (extend_sum _ _ _ V7 N7 Vf4 Nf4 S7) as (V8 & N8 & S8).
  destruct (extend_sum _ _ _ V8 N8 Vf5 Nf5 S8) as (V9 & N9 & S9).
  destruct (extend_sum _ _ _ V9 N9 Vf6 Nf6 S9) as (V10 & N10 & S10).
  destruct (extend_sum _ _ fee V10 N10 Vsf Nsf S10) as (V11 & N11 & S11).
  intros total. subst total.
  split; [| apply nonneg_leb_zero; exact N11].
  apply List.Forall_forall. intros x Hx.
  rewrite List.Forall_forall in S11.
  destruct (S11 x) as (_ & Zx & Lx); [| split; assumption].
  cbn [In] in Hx |- *. tauto.
Qed.

(** X14: in every state the component can reach, a declared value above
    zero gives a breakdown in which the total and the twelve amounts are
    numbers, none of the twelve amounts is negative or NaN and the total is
    at least each of them. *)
Theorem amounts_below_total h costs :
  Calculator.reachable h ->
  calculateCosts (Calculator.inputs h) = Some costs ->
  ltb zero (parseFloat (carValue (Calculator.inputs h))) = true ->
  exists total : number,
    totalCost costs = total /\
    Forall
      (fun c : Value =>
         exists amount : number,
           c = amount /\ leb zero amount = true /\ leb amount total = true)
      (Calculator.components costs) /\
    leb zero total = true.
Proof.
  intros Hr Hc Hv.
  pose proof (invariant_reachable h Hr) as Inv.
  destruct (reachable_shipping h Inv) as (rate & _ & Hs & Vs & Ls & _).
  destruct Inv as (I1 & I2 & I3 & _).
  apply calculateCosts_inv in Hc as (e & a & _ & He & Ha & ->).
  apply selectEngine_In in He as [Ie _]. apply selectAge_In in Ha as [Ia _].
  destruct (engine_band_facts e Ie) as (Vm & Pm & _ & _).
  destruct (age_band_facts a Ia) as (Vf & Pf & Lf).
  pose proof (parseFloat_valid (carValue (Calculator.inputs h))) as Vv.
  assert (Ff : pos_finite (depreciationFactor a)).
  { apply pos_finite_of_bounds; try assumption.
    destruct (depreciationFactor a) as [?|[|]| |? ? ?]; try reflexivity; discriminate. }
  assert (V0 : valid (parseFloat (carValue (Calculator.inputs h)) * multiplier e))
    by (apply mul_valid; assumption).
  assert (N0 : Calculator.nonneg
                 (parseFloat (carValue (Calculator.inputs h)) * multiplier e))
    by (apply mul_pos_shape; assumption).
  destruct (mul_nonneg _ _ V0 Vf N0 Ff) as [Va Na].
  assert (Ns : Calculator.nonneg rate).
  { apply positive_value_nonneg; [exact Vs |].
    assert (V15 : valid 150000) by reflexivity.
    pose proof (leb_value_inv 150000 rate V15 Vs Ls) as H.
    assert (0 < value 150000) by (vm_compute; reflexivity). lia. }
  pose proof (amounts_of_adjusted _ rate Va Na Vs Ns) as [H Ht].
  cbv zeta in H, Ht.
  rewrite Hs. unfold costsOf.
  cbn [Calculator.components adjustedValue importDuty exciseDuty vat
       shippingCost clearingFees inspectionFees documentationFees kraFees
       ntsa_fees portHandling ourServiceFee totalCost plus].
  rewrite I1, I2, I3. eexists. split; [reflexivity |]. split; [| exact Ht].
  rewrite List.Forall_forall in H.
  repeat (constructor;
          [eexists; split; [reflexivity |]; apply H; cbn [In]; tauto |]).
  constructor.
Qed.

Lemma amounts_below_total_witness :
  exists total : number,
    totalCost Calculator.exampleUkCosts = total /\
    Forall
      (fun c : Value =>
         exists amount : number,
           c = amount /\ leb zero amount = true /\ leb amount total = true)
      (Calculator.components Calculator.exampleUkCosts) /\
    leb zero total = true.
Proof.
  assert (R : Calculator.reachable (Calculator.exampleHooks "2500000"))
    by (apply exampleHooks_reachable; discriminate).
  assert (C : calculateCosts (Calculator.inputs (Calculator.exampleHooks "2500000")) =
              Some Calculator.exampleUkCosts) by (vm_compute; reflexivity).
  assert (P : ltb zero
                (parseFloat (carValue (Calculator.inputs (Calculator.exampleHooks "2500000"))))
              = true) by (vm_compute; reflexivity).
  exact (amounts_below_total _ _ R C P).
Defined.
